(** * StarryPad Simon Says: leaderboard store and game engine

    A shallow embedding of [server.py] (and of the input loop of
    [main.py]) together with the properties of the leaderboard store,
    the debounce rule and the game-state engine.

    Conventions.
    - Python [int] is [Z]; list indices and [expected_index] are [nat].
    - Values produced by [json.loads] are the type [json] (the fragment
      without floating-point numbers); a Python [dict] is the association
      list of its items in insertion order, keys pairwise distinct.
    - Text is [string], one character per code point below 256.
    - [time.time()] readings are exact rationals, in seconds; the
      rounding of the floating-point subtraction is not modelled.
    - A computation that may raise returns [res]; the game thread, which
      also mutates its variables and talks to queues and the device, runs
      in the state-and-exception monad [M].
    - Once a port is open, device I/O succeeds: a failing [outport.send]
      (which the thread swallows) and a failing poll of the input port
      are not modelled, nor is a failing write of the leaderboard file.
    - The input port keeps the messages it receives until the thread
      polls them ([inport.iter_pending()]); everything that reaches the
      thread from outside does so while it sleeps. *)

From Stdlib Require Import List ZArith String Ascii Bool Arith Lia.
From Stdlib Require Import QArith Lqa Sorted Permutation.
Import ListNotations.
Local Open Scope string_scope.
Local Open Scope list_scope.
Local Open Scope Z_scope.

(** ** Python values and exceptions *)

#[local] Set Warnings "-register-all".

Inductive json : Type :=
| JNull
| JBool (b : bool)
| JInt (z : Z)
| JStr (s : string)
| JArr (items : list json)
| JObj (fields : list (string * json)).

Inductive exn : Type :=
| AttributeError
| KeyError
| TypeError
| IndexError
| OSError
| UnicodeDecodeError
| JSONDecodeError.

Inductive res (A : Type) : Type :=
| Ok (a : A)
| Raise (e : exn).
Arguments Ok {A} a.
Arguments Raise {A} e.

Definition res_bind {A B} (m : res A) (k : A -> res B) : res B :=
  match m with
  | Ok a => k a
  | Raise e => Raise e
  end.

Declare Scope res_scope.
Delimit Scope res_scope with res.
Notation "x <- m ;; k" := (res_bind m (fun x => k))
  (at level 61, m at next level, right associativity) : res_scope.
Local Open Scope res_scope.

Fixpoint map_res {A B} (f : A -> res B) (l : list A) : res (list B) :=
  match l with
  | [] => Ok []
  | x :: l' => y <- f x ;; ys <- map_res f l' ;; Ok (y :: ys)
  end.

Definition exn_eqb (a b : exn) : bool :=
  match a, b with
  | AttributeError, AttributeError | KeyError, KeyError
  | TypeError, TypeError | IndexError, IndexError | OSError, OSError
  | UnicodeDecodeError, UnicodeDecodeError
  | JSONDecodeError, JSONDecodeError => true
  | _, _ => false
  end.

(** [d.get(k)] on the items of a dict. *)
Fixpoint assoc (k : string) (m : list (string * json)) : option json :=
  match m with
  | [] => None
  | (k', v) :: m' => if String.eqb k k' then Some v else assoc k m'
  end.

(** [e.get(k, default)]: only a dict has the method. *)
Definition get (e : json) (k : string) (default : json) : res json :=
  match e with
  | JObj m => Ok (match assoc k m with Some v => v | None => default end)
  | _ => Raise AttributeError
  end.

(** [e[k]] with a string key. *)
Definition getitem (e : json) (k : string) : res json :=
  match e with
  | JObj m => match assoc k m with Some v => Ok v | None => Raise KeyError end
  | _ => Raise TypeError
  end.

(** [board[-1]]. *)
Definition getitem_last (l : list json) : res json :=
  match l with
  | [] => Raise IndexError
  | x :: l' => Ok (last l' x)
  end.

(** Python [==] on decoded JSON values ([True == 1], dicts compare as
    maps, values of unrelated types are unequal). *)
Fixpoint py_eq (a b : json) : bool :=
  match a, b with
  | JNull, JNull => true
  | JBool x, JBool y => Bool.eqb x y
  | JBool x, JInt y => Z.b2z x =? y
  | JInt x, JBool y => x =? Z.b2z y
  | JInt x, JInt y => x =? y
  | JStr x, JStr y => String.eqb x y
  | JArr xs, JArr ys =>
      (fix all2 (xs ys : list json) : bool :=
         match xs, ys with
         | [], [] => true
         | x :: xs', y :: ys' => py_eq x y && all2 xs' ys'
         | _, _ => false
         end) xs ys
  | JObj m, JObj n =>
      (List.length m =? List.length n)%nat &&
      (fix sub (m : list (string * json)) : bool :=
         match m with
         | [] => true
         | (k, v) :: m' =>
             match assoc k n with
             | Some v' => py_eq v v'
             | None => false
             end && sub m'
         end) m
  | _, _ => false
  end.

(** Python [a < b] on decoded JSON values: numbers (with [bool] as a
    subclass of [int]) numerically, strings by code point, lists
    lexicographically, every other pairing raises [TypeError]. *)
Fixpoint py_lt (a b : json) : res bool :=
  match a, b with
  | JBool x, JBool y => Ok (Z.b2z x <? Z.b2z y)
  | JBool x, JInt y => Ok (Z.b2z x <? y)
  | JInt x, JBool y => Ok (x <? Z.b2z y)
  | JInt x, JInt y => Ok (x <? y)
  | JStr x, JStr y => Ok (String.ltb x y)
  | JArr xs, JArr ys =>
      (fix lex (xs ys : list json) : res bool :=
         match xs, ys with
         | [], [] => Ok false
         | [], _ :: _ => Ok true
         | _ :: _, [] => Ok false
         | x :: xs', y :: ys' => if py_eq x y then lex xs' ys' else py_lt x y
         end) xs ys
  | _, _ => Raise TypeError
  end.

(** ** [sorted(data, key=..., reverse=True)]

    The keys are computed first, left to right; the sort is stable, so
    with [reverse=True] items of equal key keep their original order.
    The result (and whether a comparison raises) is that of CPython
    whenever the keys are pairwise comparable or fall into classes that
    only compare within themselves. *)

Fixpoint insert_desc (x : json * json) (l : list (json * json))
  : res (list (json * json)) :=
  match l with
  | [] => Ok [x]
  | y :: l' =>
      b <- py_lt (fst x) (fst y) ;;
      if b then r <- insert_desc x l' ;; Ok (y :: r)
      else Ok (x :: y :: l')
  end.

Fixpoint sort_desc (l : list (json * json)) : res (list (json * json)) :=
  match l with
  | [] => Ok []
  | x :: l' => s <- sort_desc l' ;; insert_desc x s
  end.

Definition sorted_reverse (key : json -> res json) (data : list json)
  : res (list json) :=
  keys <- map_res key data ;;
  s <- sort_desc (combine keys data) ;;
  Ok (map snd s).

(** ** Leaderboard persistence *)

Definition TOP_N : nat := 5.
#[local] Arguments firstn : simpl never.

(** What [LEADERBOARD_FILE] holds, seen through [exists()],
    [read_text()] and [json.loads]. *)
Inductive file_state : Type :=
| FileAbsent                 (* exists() is False *)
| FileUnreadable             (* read_text() raises OSError *)
| FileUndecodable            (* read_text() raises UnicodeDecodeError *)
| FileGarbage                (* json.loads raises JSONDecodeError (also the empty file) *)
| FileJson (v : json).       (* json.loads returns v *)

Definition file_exists (fs : file_state) : bool :=
  match fs with
  | FileAbsent => false
  | _ => true
  end.

(** [json.loads(LEADERBOARD_FILE.read_text())]. *)
Definition read_json (fs : file_state) : res json :=
  match fs with
  | FileAbsent | FileUnreadable => Raise OSError
  | FileUndecodable => Raise UnicodeDecodeError
  | FileGarbage => Raise JSONDecodeError
  | FileJson v => Ok v
  end.

Definition load_leaderboard (fs : file_state) : res (list json) :=
  if file_exists fs then
    (* the [try] block: [Some b] when it executes [return b] *)
    let attempt : res (option (list json)) :=
      data <- read_json fs ;;
      match data with
      | JArr items =>
          s <- sorted_reverse (fun e => get e "score" (JInt 0)) items ;;
          Ok (Some (firstn TOP_N s))
      | _ => Ok None
      end in
    match attempt with
    | Ok (Some board) => Ok board
    | Ok None => Ok []
    | Raise e =>
        if exn_eqb e JSONDecodeError || exn_eqb e OSError then Ok []
        else Raise e
    end
  else Ok [].

(** [json.dumps] followed by a later [json.loads] gives the board back. *)
Definition save_leaderboard (board : list json) : file_state :=
  FileJson (JArr board).

Definition is_top_score (fs : file_state) (score : Z) : res bool :=
  board <- load_leaderboard fs ;;
  if (List.length board <? TOP_N)%nat then Ok (0 <? score)
  else
    e <- getitem_last board ;;
    low <- get e "score" (JInt 0) ;;
    py_lt low (JInt score).

(** Returns the file as saved and the board. *)
Definition add_score (fs : file_state) (name : string) (score : json)
  : res (file_state * list json) :=
  board <- load_leaderboard fs ;;
  let board := board ++ [JObj [("name", JStr name); ("score", score)]] in
  s <- sorted_reverse (fun e => getitem e "score") board ;;
  let board := firstn TOP_N s in
  Ok (save_leaderboard board, board).

(** ** The [submit_name] command of [websocket_handler] *)

(** Characters removed by [str.strip()]. *)
Definition is_space (c : ascii) : bool :=
  let n := nat_of_ascii c in
  ((9 <=? n) && (n <=? 13) || (28 <=? n) && (n <=? 32)
   || (n =? 133) || (n =? 160))%nat.

Fixpoint lstrip (s : string) : string :=
  match s with
  | EmptyString => EmptyString
  | String c s' => if is_space c then lstrip s' else s
  end.

Fixpoint rstrip (s : string) : string :=
  match s with
  | EmptyString => EmptyString
  | String c s' =>
      match rstrip s' with
      | EmptyString => if is_space c then EmptyString else String c EmptyString
      | r => String c r
      end
  end.

Definition strip (s : string) : string := rstrip (lstrip s).

(** [str(...).strip()[:20]]. *)
Definition clean_name (s : string) : string := substring 0 20 (strip s).

Definition nonempty (s : string) : bool :=
  match s with
  | EmptyString => false
  | _ => true
  end.

(** [isinstance(score, int) and score > 0]. *)
Definition positive_int (score : json) : bool :=
  match score with
  | JInt z => 0 <? z
  | JBool b => 0 <? Z.b2z b
  | _ => false
  end.

(** The [submit_name] branch for a payload whose ["name"] converts to the
    text [name] and whose ["score"] is [score].  Returns the file
    afterwards and the board broadcast to every client, if any. *)
Definition submit_name (fs : file_state) (name : string) (score : json)
  : res (file_state * option (list json)) :=
  let name := clean_name name in
  if nonempty name && positive_int score then
    r <- add_score fs name score ;;
    Ok (fst r, Some (snd r))
  else Ok (fs, None).

(** ** Leaderboards as the data model has them *)

Record entry : Type := { name : string; points : Z }.

Definition entry_json (e : entry) : json :=
  JObj [("name", JStr (name e)); ("score", JInt (points e))].

(** The file as [save_leaderboard] leaves it for the board [es]. *)
Definition stored (es : list entry) : file_state :=
  FileJson (JArr (map entry_json es)).

(** Descending by score. *)
Definition descending (es : list entry) : Prop :=
  Sorted (fun a b => points b <= points a) es.

(** Scenario B of the specification. *)
Definition board_B : list entry :=
  [ {| name := "A"; points := 10 |}; {| name := "B"; points := 8 |};
    {| name := "C"; points := 6 |}; {| name := "D"; points := 4 |};
    {| name := "E"; points := 2 |} ].

(** The board scenario B would have after the submission of 3. *)
Definition board_B_after (who : string) : list entry :=
  [ {| name := "A"; points := 10 |}; {| name := "B"; points := 8 |};
    {| name := "C"; points := 6 |}; {| name := "D"; points := 4 |};
    {| name := who; points := 3 |} ].

(** ** The sort, seen on leaderboards *)

(** The stable descending sort on entries: [place x l] puts [x] behind
    every entry of [l] that scores at least as much. *)
Fixpoint place (x : entry) (l : list entry) : list entry :=
  match l with
  | [] => [x]
  | y :: l' => if points x <? points y then y :: place x l' else x :: y :: l'
  end.

Fixpoint ranked (l : list entry) : list entry :=
  match l with
  | [] => []
  | x :: l' => place x (ranked l')
  end.

(** An item with its sort key. *)
Definition keyed (e : entry) : json * json := (JInt (points e), entry_json e).

(** Two neighbours of a sorted run, as the comparisons left them. *)
Definition in_order (p q : json * json) : Prop :=
  py_lt (fst q) (fst p) = Ok true \/ py_lt (fst p) (fst q) = Ok false.

Definition score_key (e : json) : res json := get e "score" (JInt 0).

(** What [load_leaderboard] promises about any board it returns: two
    neighbours were left in this order by a comparison of their keys. *)
Definition neighbours (a b : json) : Prop :=
  exists ka kb, score_key a = Ok ka /\ score_key b = Ok kb /\
                in_order (ka, a) (kb, b).

(** ** MIDI helpers *)

Definition NOTE_MIN : Z := 31.
Definition NOTE_MAX : Z := 46.
Definition DEBOUNCE_S : Q := 35 # 100.

Definition note_to_pad_index (note : Z) : option Z :=
  if (NOTE_MIN <=? note) && (note <=? NOTE_MAX) then Some (note - NOTE_MIN)
  else None.

(** A message of the device or to it; only [note_on] and [note_off]
    carry a note. *)
Inductive midi_msg : Type :=
| NoteOn (note velocity : Z)
| NoteOff (note : Z)
| OtherMsg.

(** ** The game thread: state, channels and environment *)

Inductive Phase : Type := Idle | Playing | Input | GameOver.

(** What [websocket_handler] puts on [ui_to_game]. *)
Inductive command : Type := Start | Stop.

Inductive error_text : Type :=
| NoStarryPad                (* "No StarryPad found. Connect it and try again." *)
| Crashed (e : exn).         (* f"Error: {e}" *)

Inductive event : Type :=
| EvPhase (p : Phase)
| EvScore (score : Z)
| EvLeaderboard (board : list json)
| EvLight (pad : Z)
| EvUnlight (pad : Z)
| EvCorrect (pad : Z)
| EvWrong (pad : Z)
| EvGameover (score : Z) (is_top5 : bool)
| EvError (text : error_text).

(** The local variables of [game_thread]; a port is [true] once opened. *)
Record game : Type := mkGame {
  inport : bool;
  outport : bool;
  sequence : list Z;
  score : Z;
  phase : Phase;
  expected_index : nat;
  last_note : option Z;
  last_note_time : Q;
  stop_requested : bool;
  midi_ok : bool
}.

Definition set_inport (v : bool) (g : game) : game :=
  mkGame v (outport g) (sequence g) (score g) (phase g) (expected_index g)
         (last_note g) (last_note_time g) (stop_requested g) (midi_ok g).
Definition set_outport (v : bool) (g : game) : game :=
  mkGame (inport g) v (sequence g) (score g) (phase g) (expected_index g)
         (last_note g) (last_note_time g) (stop_requested g) (midi_ok g).
Definition set_sequence (v : list Z) (g : game) : game :=
  mkGame (inport g) (outport g) v (score g) (phase g) (expected_index g)
         (last_note g) (last_note_time g) (stop_requested g) (midi_ok g).
Definition set_score (v : Z) (g : game) : game :=
  mkGame (inport g) (outport g) (sequence g) v (phase g) (expected_index g)
         (last_note g) (last_note_time g) (stop_requested g) (midi_ok g).
Definition set_phase (v : Phase) (g : game) : game :=
  mkGame (inport g) (outport g) (sequence g) (score g) v (expected_index g)
         (last_note g) (last_note_time g) (stop_requested g) (midi_ok g).
Definition set_expected_index (v : nat) (g : game) : game :=
  mkGame (inport g) (outport g) (sequence g) (score g) (phase g) v
         (last_note g) (last_note_time g) (stop_requested g) (midi_ok g).
Definition set_last_note (v : option Z) (g : game) : game :=
  mkGame (inport g) (outport g) (sequence g) (score g) (phase g)
         (expected_index g) v (last_note_time g) (stop_requested g) (midi_ok g).
Definition set_last_note_time (v : Q) (g : game) : game :=
  mkGame (inport g) (outport g) (sequence g) (score g) (phase g)
         (expected_index g) (last_note g) v (stop_requested g) (midi_ok g).
Definition set_stop_requested (v : bool) (g : game) : game :=
  mkGame (inport g) (outport g) (sequence g) (score g) (phase g)
         (expected_index g) (last_note g) (last_note_time g) v (midi_ok g).
Definition set_midi_ok (v : bool) (g : game) : game :=
  mkGame (inport g) (outport g) (sequence g) (score g) (phase g)
         (expected_index g) (last_note g) (last_note_time g) (stop_requested g) v.

Notation "g |> f" := (f g) (at level 45, left associativity, only parsing).

(** What reaches the thread from outside while it sleeps: commands put
    on [ui_to_game], messages the open input port receives, and the
    leaderboard file if somebody wrote it. *)
Record arrival : Type := mkArrival {
  new_commands : list command;
  new_messages : list midi_msg;
  rewritten : option file_state
}.

Definition nothing : arrival := mkArrival [] [] None.

(** An attempt to open the device. *)
Inductive scan_result : Type :=
| NoInputPort               (* no input matches, or the search or open_input raises *)
| OutputFails               (* open_input succeeds, open_output raises *)
| Opened (has_output : bool).

(** The outside world, one answer per request in the order of asking. *)
Record env : Type := mkEnv {
  arrivals : nat -> arrival;       (* during the n-th [time.sleep] *)
  choice : nat -> Z;               (* the n-th [random.choice] picks [PLAYABLE_NOTES[choice n mod 16]] *)
  clock : nat -> Q;                (* the n-th [time.time()] *)
  scan : nat -> scan_result        (* the n-th connection attempt *)
}.

(** What the thread does that can be seen from outside. *)
Inductive action : Type :=
| Emit (ev : event)                       (* game_events.put *)
| Send (m : midi_msg)                     (* outport.send *)
| Sleep (seconds : Q) (meanwhile : arrival).

(** An action together with the variables of the thread when it
    happened. *)
Record obs : Type := mkObs { act : action; snap : game }.

Record world : Type := mkWorld {
  vars : game;
  ui_to_game : list command;        (* oldest first *)
  pending : list midi_msg;          (* held by the input port, oldest first *)
  leaderboard_file : file_state;
  trace : list obs;                 (* oldest first *)
  slept : nat;
  rolled : nat;
  timed : nat;
  scanned : nat
}.

Definition set_vars (g : game) (w : world) : world :=
  mkWorld g (ui_to_game w) (pending w) (leaderboard_file w) (trace w)
          (slept w) (rolled w) (timed w) (scanned w).

Definition record (a : action) (w : world) : world :=
  mkWorld (vars w) (ui_to_game w) (pending w) (leaderboard_file w)
          (trace w ++ [mkObs a (vars w)])
          (slept w) (rolled w) (timed w) (scanned w).

(** The queues and the file after an arrival. *)
Definition absorb (a : arrival) (w : world) : world :=
  mkWorld (vars w)
          (ui_to_game w ++ new_commands a)
          (if inport (vars w) then pending w ++ new_messages a else pending w)
          (match rewritten a with Some fs => fs | None => leaderboard_file w end)
          (trace w)
          (S (slept w)) (rolled w) (timed w) (scanned w).

(** ** The monad of the game thread *)

Inductive outcome (A : Type) : Type :=
| Done (a : A) (w : world)
| Failed (e : exn) (w : world)     (* an exception is propagating *)
| Timeout (w : world).             (* the run was cut here *)
Arguments Done {A} a w.
Arguments Failed {A} e w.
Arguments Timeout {A} w.

Definition M (A : Type) : Type := world -> outcome A.

Definition ret {A} (a : A) : M A := fun w => Done a w.

Definition bind {A B} (m : M A) (k : A -> M B) : M B :=
  fun w =>
    match m w with
    | Done a w' => k a w'
    | Failed e w' => Failed e w'
    | Timeout w' => Timeout w'
    end.

Declare Scope game_scope.
Delimit Scope game_scope with game.
Notation "x <- m ;; k" := (bind m (fun x => k))
  (at level 61, m at next level, right associativity) : game_scope.
Notation "m ;; k" := (bind m (fun _ => k))
  (at level 61, right associativity) : game_scope.

Definition world_of {A} (o : outcome A) : world :=
  match o with
  | Done _ w | Failed _ w | Timeout w => w
  end.

Definition gets {A} (f : game -> A) : M A := fun w => Done (f (vars w)) w.

Definition modify (f : game -> game) : M unit :=
  fun w => Done tt (set_vars (f (vars w)) w).

Definition lift {A} (r : res A) : M A :=
  fun w => match r with Ok a => Done a w | Raise e => Failed e w end.

Definition timeout {A} : M A := fun w => Timeout w.

Definition emit (ev : event) : M unit := fun w => Done tt (record (Emit ev) w).

(** [if outport: try: outport.send(m) except Exception: pass]. *)
Definition send (m : midi_msg) : M unit :=
  fun w => Done tt (if outport (vars w) then record (Send m) w else w).

(** [load_leaderboard()] and [is_top_score(score)] as the thread calls
    them. *)
Definition load_board : M (list json) :=
  fun w => lift (load_leaderboard (leaderboard_file w)) w.

Definition top_score (s : Z) : M bool :=
  fun w => lift (is_top_score (leaderboard_file w) s) w.

Definition ltb_Q (a b : Q) : bool := negb (Qle_bool b a).

(** [last_note == note and (now - last_note_time) < DEBOUNCE_S]. *)
Definition debounced (g : game) (note : Z) (now : Q) : bool :=
  match last_note g with
  | Some n => (n =? note) && ltb_Q (now - last_note_time g) DEBOUNCE_S
  | None => false
  end.

Definition phase_eqb (a b : Phase) : bool :=
  match a, b with
  | Idle, Idle | Playing, Playing | Input, Input | GameOver, GameOver => true
  | _, _ => false
  end.

Definition is_stop (c : option command) : bool :=
  match c with Some Stop => true | _ => false end.

Definition is_start (c : option command) : bool :=
  match c with Some Start => true | _ => false end.

(** How the body of [for msg in inport.iter_pending()] ends. *)
Inductive flow : Type := Continue | Break.

(** The world after one more reading of the clock. *)
Definition tick (w : world) : world :=
  mkWorld (vars w) (ui_to_game w) (pending w) (leaderboard_file w)
          (trace w) (slept w) (rolled w) (S (timed w)) (scanned w).

Section Engine.

Variable E : env.
Local Open Scope game_scope.

Definition sleep (seconds : Q) : M unit :=
  fun w =>
    let a := arrivals E (slept w) in
    Done tt (absorb a (record (Sleep seconds a) w)).

Definition random_choice : M Z :=
  fun w =>
    Done (NOTE_MIN + choice E (rolled w) mod 16)
         (mkWorld (vars w) (ui_to_game w) (pending w) (leaderboard_file w)
                  (trace w) (slept w) (S (rolled w)) (timed w) (scanned w)).

Definition time_time : M Q :=
  fun w => Done (clock E (timed w)) (tick w).

Definition find_and_open : M scan_result :=
  fun w =>
    Done (scan E (scanned w))
         (mkWorld (vars w) (ui_to_game w) (pending w) (leaderboard_file w)
                  (trace w) (slept w) (rolled w) (timed w) (S (scanned w))).

(** Empties the queue and returns the command put last, if any. *)
Definition drain_commands : M (option command) :=
  fun w =>
    Done (last (map Some (ui_to_game w)) None)
         (mkWorld (vars w) [] (pending w) (leaderboard_file w)
                  (trace w) (slept w) (rolled w) (timed w) (scanned w)).

(** One step of the generator [inport.iter_pending()]. *)
Definition poll : M (option midi_msg) :=
  fun w =>
    match pending w with
    | [] => Done None w
    | m :: rest =>
        Done (Some m)
             (mkWorld (vars w) (ui_to_game w) rest (leaderboard_file w)
                      (trace w) (slept w) (rolled w) (timed w) (scanned w))
    end.

Definition try_connect_midi : M bool :=
  ok <- gets midi_ok ;;
  if ok then ret true
  else
    r <- find_and_open ;;
    match r with
    | NoInputPort => ret false
    | OutputFails => modify (set_inport true) ;; ret false
    | Opened has_output =>
        modify (fun g => g |> set_inport true |> set_outport has_output
                           |> set_midi_ok true) ;;
        ret true
    end.

Definition light_pad (note : Z) : M unit :=
  let idx := note_to_pad_index note in
  match idx with Some i => emit (EvLight i) | None => ret tt end ;;
  send (NoteOn note 127) ;;
  sleep (45 # 100) ;;
  send (NoteOff note) ;;
  send (NoteOn note 0) ;;
  match idx with Some i => emit (EvUnlight i) | None => ret tt end ;;
  sleep (25 # 100).

Definition go_idle : M unit :=
  modify (fun g => g |> set_phase Idle |> set_sequence [] |> set_score 0
                     |> set_stop_requested false) ;;
  emit (EvPhase Idle) ;;
  emit (EvScore 0) ;;
  board <- load_board ;;
  emit (EvLeaderboard board).

(** The [for note in sequence] loop of [start_round]; [true] when it
    left through [return]. *)
Fixpoint playback (notes : list Z) : M bool :=
  match notes with
  | [] => ret false
  | note :: rest =>
      cmd <- drain_commands ;;
      if is_stop cmd then
        modify (set_stop_requested true) ;;
        go_idle ;;
        ret true
      else
        light_pad note ;;
        playback rest
  end.

Definition start_round : M unit :=
  note <- random_choice ;;
  modify (fun g =>
            let g := set_sequence (sequence g ++ [note]) g in
            g |> set_score (Z.of_nat (List.length (sequence g)) - 1)
              |> set_phase Playing |> set_expected_index 0) ;;
  s <- gets score ;;
  emit (EvScore s) ;;
  emit (EvPhase Playing) ;;
  notes <- gets sequence ;;
  returned <- playback notes ;;
  if returned then ret tt
  else
    cmd <- drain_commands ;;
    if is_stop cmd then go_idle
    else
      modify (fun g => g |> set_phase Input |> set_expected_index 0) ;;
      emit (EvPhase Input).

Definition game_over : M unit :=
  final_score <- gets score ;;
  modify (set_phase GameOver) ;;
  emit (EvPhase GameOver) ;;
  top <- top_score final_score ;;
  emit (EvGameover final_score top).

(** The body of the message loop from the debounce update on, for a
    press of [note] (pad [idx]) read at time [now]. *)
Definition evaluate (note idx : Z) (now : Q) : M flow :=
  modify (fun g => g |> set_last_note (Some note) |> set_last_note_time now) ;;
  send (NoteOn note 127) ;;
  sleep (15 # 100) ;;
  send (NoteOff note) ;;
  send (NoteOn note 0) ;;
  g <- gets (fun g => g) ;;
  expected <- lift (match nth_error (sequence g) (expected_index g) with
                    | Some n => Ok n
                    | None => Raise IndexError
                    end) ;;
  if negb (note =? expected) then
    emit (EvWrong idx) ;;
    game_over ;;
    ret Continue
  else
    emit (EvCorrect idx) ;;
    modify (fun g => set_expected_index (S (expected_index g)) g) ;;
    g <- gets (fun g => g) ;;
    if (List.length (sequence g) <=? expected_index g)%nat then
      sleep (8 # 10) ;;
      start_round ;;
      ph <- gets phase ;;
      if phase_eqb ph Idle then ret Break else ret Continue
    else ret Continue.

(** The body of [for msg in inport.iter_pending()]. *)
Definition handle (msg : midi_msg) : M flow :=
  match msg with
  | NoteOn note velocity =>
      if velocity =? 0 then ret Continue
      else
        match note_to_pad_index note with
        | None => ret Continue
        | Some idx =>
            ph <- gets phase ;;
            if negb (phase_eqb ph Input) then ret Continue
            else
              now <- time_time ;;
              g <- gets (fun g => g) ;;
              if debounced g note now then ret Continue
              else evaluate note idx now
        end
  | _ => ret Continue
  end.

(** [for msg in inport.iter_pending(): ...], at most [fuel] messages. *)
Fixpoint message_loop (fuel : nat) : M unit :=
  match fuel with
  | O => timeout
  | S fuel' =>
      m <- poll ;;
      match m with
      | None => ret tt
      | Some msg =>
          f <- handle msg ;;
          match f with
          | Break => ret tt
          | Continue => message_loop fuel'
          end
      end
  end.

(** The [start] branch of the main loop; [true] when it ends in
    [continue]. *)
Definition restart : M bool :=
  ok <- gets midi_ok ;;
  (if ok then ret true else try_connect_midi) ;;
  ok <- gets midi_ok ;;
  if negb ok then
    emit (EvError NoStarryPad) ;;
    go_idle ;;
    ret true
  else
    modify (fun g => g |> set_stop_requested false |> set_sequence []
                       |> set_score 0) ;;
    start_round ;;
    ph <- gets phase ;;
    ret (phase_eqb ph Idle).

(** One turn of [while True]. *)
Definition iteration (fuel : nat) : M unit :=
  cmd <- drain_commands ;;
  ph <- gets phase ;;
  if is_stop cmd && negb (phase_eqb ph Idle) then go_idle
  else
    skip <- (if is_start cmd && (phase_eqb ph Idle || phase_eqb ph GameOver)
             then restart else ret false) ;;
    if skip then ret tt
    else
      ph <- gets phase ;;
      if phase_eqb ph Idle || phase_eqb ph GameOver then sleep (5 # 100)
      else
        opened <- gets inport ;;
        if negb opened then sleep (5 # 100)
        else
          message_loop fuel ;;
          sleep (5 # 100).

Fixpoint main_loop (fuel : nat) : M unit :=
  match fuel with
  | O => timeout
  | S fuel' => iteration fuel ;; main_loop fuel'
  end.

(** [except Exception as e: emit(...)]. *)
Definition reporting (m : M unit) : M unit :=
  fun w =>
    match m w with
    | Failed e w' => emit (EvError (Crashed e)) w'
    | o => o
    end.

(** [game_thread], cut after [fuel] turns of its loop. *)
Definition game_thread (fuel : nat) : M unit :=
  try_connect_midi ;;
  go_idle ;;
  reporting (main_loop fuel).

End Engine.

(** The thread before its first statement. *)
Definition boot (fs : file_state) : world :=
  mkWorld (mkGame false false [] 0 Idle 0 None 0%Q false false)
          [] [] fs [] 0 0 0 0.

Definition actions (w : world) : list action := map act (trace w).

(** The score shown while a round is played or repeated. *)
Definition score_ok (g : game) : Prop :=
  phase g = Playing \/ phase g = Input ->
  score g = Z.of_nat (List.length (sequence g)) - 1.

(** [DebounceState]. *)
Definition debounce_state (g : game) : option Z * Q :=
  (last_note g, last_note_time g).

(** ** Invariants of the thread

    [holds I P m Q]: started in a world satisfying [I] whose variables
    satisfy [P], the computation [m] ends in a world satisfying [I]
    however it ends, and when it returns the variables satisfy [Q]. *)
Definition holds (I : world -> Prop) {A} (P : game -> Prop) (m : M A)
           (Q : A -> game -> Prop) : Prop :=
  forall w, I w -> P (vars w) ->
    match m w with
    | Done a w' => I w' /\ Q a (vars w')
    | Failed _ w' | Timeout w' => I w'
    end.

Definition anything {A} : A -> game -> Prop := fun _ _ => True.

(** Between rounds. *)
Definition resting (g : game) : Prop := phase g = Idle \/ phase g = GameOver.

(** [steady I]: the property [I] of the world survives every action the
    thread records, every change of the queues, the file and the
    environment cursors, and every assignment of the thread other than
    the debounce update, each under what is known where it stands. *)
Record steady (I : world -> Prop) : Prop := {
  steady_record : forall a w, I w -> I (record a w);
  steady_env :
    forall w w', vars w' = vars w -> trace w' = trace w -> I w -> I w';
  steady_idle :
    forall w, I w ->
      I (set_vars (vars w |> set_phase Idle |> set_sequence [] |> set_score 0
                          |> set_stop_requested false) w);
  steady_stop_requested :
    forall w, I w -> I (set_vars (set_stop_requested true (vars w)) w);
  steady_round :
    forall w note, I w ->
      I (set_vars
           (let g := set_sequence (sequence (vars w) ++ [note]) (vars w) in
            g |> set_score (Z.of_nat (List.length (sequence g)) - 1)
              |> set_phase Playing |> set_expected_index 0) w);
  steady_input :
    forall w, I w -> phase (vars w) = Playing ->
      I (set_vars (vars w |> set_phase Input |> set_expected_index 0) w);
  steady_gameover :
    forall w, I w -> I (set_vars (set_phase GameOver (vars w)) w);
  steady_advance :
    forall w, I w ->
      I (set_vars (set_expected_index (S (expected_index (vars w))) (vars w)) w);
  steady_restart :
    forall w, I w -> resting (vars w) ->
      I (set_vars (vars w |> set_stop_requested false |> set_sequence []
                          |> set_score 0) w);
  steady_inport :
    forall w, I w -> I (set_vars (set_inport true (vars w)) w);
  steady_opened :
    forall w has_output, I w ->
      I (set_vars (vars w |> set_inport true |> set_outport has_output
                          |> set_midi_ok true) w)
}.

(** The variables now, and at every action recorded so far, show the
    score that goes with the sequence. *)
Definition score_kept (w : world) : Prop :=
  score_ok (vars w) /\ Forall (fun o => score_ok (snap o)) (trace w).

(** The trace has only grown since it was [t0]. *)
Definition grows (t0 : list obs) (w : world) : Prop :=
  exists ext, trace w = t0 ++ ext.

(** Since the trace was [t0] the thread has done [a]. *)
Definition said (t0 : list obs) (a : action) (w : world) : Prop :=
  exists ext, trace w = t0 ++ ext /\ In a (map act ext).

(** The trace has only grown since it was [t0], and [DebounceState] is
    [d]. *)
Definition kept (t0 : list obs) (d : option Z * Q) (w : world) : Prop :=
  (exists ext, trace w = t0 ++ ext) /\ debounce_state (vars w) = d.

(** The transitions of the thread other than the evaluation of a
    press: going idle (also on Stop), starting a round, game over, the
    restart of a session, and waiting. *)
Inductive passes (E : env) (w : world) : world -> Prop :=
| passes_here : passes E w w
| passes_idle w' : passes E w w' -> passes E w (world_of (go_idle w'))
| passes_round w' : passes E w w' -> passes E w (world_of (start_round E w'))
| passes_over w' : passes E w w' -> passes E w (world_of (game_over w'))
| passes_restart w' :
    passes E w w' -> resting (vars w') -> passes E w (world_of (restart E w'))
| passes_sleep w' seconds :
    passes E w w' -> passes E w (world_of (sleep E seconds w'))
| passes_drain w' :
    passes E w w' -> passes E w (world_of (drain_commands w')).

(** The events put on [game_events] so far. *)
Definition emitted (w : world) : list event :=
  flat_map (fun o => match act o with Emit ev => [ev] | _ => [] end) (trace w).

(** ** Worlds and environments of the scenarios *)

(** A device that is there, a clock that stands at 10.2 s, nothing
    arriving. *)
Definition quiet_env : env :=
  mkEnv (fun _ => nothing) (fun _ => 0) (fun _ => 102 # 10)
        (fun _ => Opened true).

(** Second round, nothing repeated yet; pad 0 was pressed at 10 s. *)
Definition input_world : world :=
  mkWorld (mkGame true true [31; 40] 1 Input 0 (Some 31) 10%Q false true)
          [] [] FileAbsent [] 0 0 0 0.

(** Scenario D: the sequence is pad 3, pad 7; nothing repeated yet. *)
Definition scenario_D : world :=
  mkWorld (mkGame true true [34; 38] 1 Input 0 (Some 34) 5%Q false true)
          [] [] FileAbsent [] 0 0 0 0.

(** Scenario E: three pads to play, and Stop arrives while the first is
    lit. *)
Definition stop_env : env :=
  mkEnv (fun n => match n with
                  | O => mkArrival [Stop] [] None
                  | _ => nothing
                  end)
        (fun _ => 0) (fun _ => 0%Q) (fun _ => Opened true).

Definition scenario_E : world :=
  mkWorld (mkGame true true [34; 35; 36] 2 Playing 0 None 0%Q false true)
          [] [] FileAbsent [] 0 0 0 0.

(** Stop, then Start, both put before the second checkpoint. *)
Definition stop_then_start : world :=
  mkWorld (mkGame true true [34; 35; 36] 2 Playing 0 None 0%Q false true)
          [Stop; Start] [] FileAbsent [] 0 0 0 0.

(** Start is clicked during the first idle wait; the player hits pad 0
    while the first round lights it. *)
Definition early_press : arrival := mkArrival [] [NoteOn 31 100] None.

Definition stale_env : env :=
  mkEnv (fun n => match n with
                  | 0%nat => mkArrival [Start] [] None
                  | 1%nat => early_press
                  | _ => nothing
                  end)
        (fun _ => 0) (fun _ => 10%Q) (fun _ => Opened true).

(** *** Runs timed by the sleeps of the thread

    Every clock reading that passes the debounce test is stored in
    [DebounceState] and shows in the snapshots from the next action on
    (a reading that equals the stored one for the stored pad never
    passes).  [on_time start t]: each time stored in the course of [t]
    is [start] plus the seconds the thread had slept through when it
    stored it, so that the clock of the run moves with the sleeps of
    the thread and with nothing else. *)
Definition same_state (a b : option Z * Q) : bool :=
  match fst a, fst b with
  | Some m, Some n => m =? n
  | None, None => true
  | _, _ => false
  end && Qeq_bool (snd a) (snd b).

Fixpoint on_time_from (start slept_through : Q) (stored : option Z * Q)
         (t : list obs) : bool :=
  match t with
  | [] => true
  | o :: t' =>
      let shown := debounce_state (snap o) in
      (same_state shown stored
       || Qeq_bool (snd shown) (start + slept_through)) &&
      on_time_from start
        (slept_through + match act o with Sleep s _ => s | _ => 0 end)
        shown t'
  end.

Definition on_time (start : Q) (t : list obs) : bool :=
  on_time_from start 0 (None, 0%Q) t.

(** One press of a pad, and a press that the pad reports twice. *)
Definition press (note : Z) : arrival := mkArrival [] [NoteOn note 100] None.

Definition chatter (note : Z) : arrival :=
  mkArrival [] [NoteOn note 100; NoteOn note 100] None.

(** Start is clicked during the first idle wait; the sequence will be
    pad 3, pad 7, pad 0.  The player repeats pad 3, then pad 3 and
    pad 7, and the press of pad 7 is reported twice within the same
    50 ms wait.  The thread is started at 1000 s and reads the clock
    after 0.8 s, 3.2 s, 3.4 s and 6.45 s of sleep. *)
Definition double_env : env :=
  mkEnv (fun n => match n with
                  | 0%nat => mkArrival [Start] [] None
                  | 3%nat => press 34
                  | 10%nat => press 34
                  | 12%nat => chatter 38
                  | _ => nothing
                  end)
        (fun n => match n with 0%nat => 3 | 1%nat => 7 | _ => 0 end)
        (fun n => match n with
                  | 0%nat => 10008 # 10
                  | 1%nat => 10032 # 10
                  | 2%nat => 10034 # 10
                  | _ => 100645 # 100
                  end)
        (fun _ => Opened true).


(** A leaderboard file of five entries whose scores are strings. *)
Definition text_board : list json :=
  [JObj [("name", JStr "a"); ("score", JStr "9")];
   JObj [("name", JStr "b"); ("score", JStr "8")];
   JObj [("name", JStr "c"); ("score", JStr "7")];
   JObj [("name", JStr "d"); ("score", JStr "6")];
   JObj [("name", JStr "e"); ("score", JStr "5")]].

Definition text_scores : file_state := FileJson (JArr text_board).

(** Scenario D played from the start of the thread: the sequence will
    be pad 3, pad 7; the player repeats pad 3 in the first round and
    opens the second with pad 7.  The thread is started at 1000 s and
    reads the clock after 0.8 s and 3.2 s of sleep. *)
Definition scenario_D_env : env :=
  mkEnv (fun n => match n with
                  | 0%nat => mkArrival [Start] [] None
                  | 3%nat => press 34
                  | 10%nat => press 38
                  | _ => nothing
                  end)
        (fun n => match n with 0%nat => 3 | _ => 7 end)
        (fun n => match n with
                  | 0%nat => 10008 # 10
                  | _ => 10032 # 10
                  end)
        (fun _ => Opened true).

(** Looks an observation up in the trace of a run. *)
Ltac find_in_trace :=
  vm_compute; repeat first [left; reflexivity | right].

(** ** The console game ([main.py])

    [run_game] keeps its own variables and prints instead of emitting
    events; the body of its message loop is a function of the message,
    of the clock reading and of the note [random.choice] would pick. *)
Module Console.

Record state : Type := mkState {
  sequence : list Z;
  level : Z;
  phase : Phase;
  expected_index : nat;
  last_note : option Z;
  last_note_time : Q
}.

Inductive output : Type :=
| PrintLevel (level : Z)            (* "--- Level {level} ---" *)
| PrintWatch                        (* "Watch the sequence..." *)
| PrintPad (pad_1based : Z)         (* "  Pad {n}" *)
| PrintYourTurn                     (* "Your turn - repeat the sequence." *)
| PrintWrong                        (* "Wrong! Game over." *)
| PrintExpected (position : Z)      (* "Expected pad {expected_index + 1}." *)
| PrintScore (score : Z)            (* "Score: {score}" *)
| PrintAgain                        (* "Press any pad to play again, ..." *)
| PrintCorrect                      (* "Correct! Next level." *)
| MidiOut (m : midi_msg)
| Wait (seconds : Q).

Definition send (outport : bool) (m : midi_msg) : list output :=
  if outport then [MidiOut m] else [].

Definition light_pad (outport : bool) (note : Z) : list output :=
  send outport (NoteOn note 127) ++ [Wait (45 # 100)] ++
  send outport (NoteOff note) ++ send outport (NoteOn note 0) ++
  [Wait (25 # 100)].

Definition play_sequence (outport : bool) (notes : list Z) : list output :=
  flat_map (fun note =>
              match note_to_pad_index note with
              | Some idx => [PrintPad (idx + 1)]
              | None => []
              end ++ light_pad outport note) notes.

Definition start_round (outport : bool) (pick : Z) (st : state)
  : state * list output :=
  let notes := sequence st ++ [pick] in
  (mkState notes (Z.of_nat (List.length notes)) Input 0
           (last_note st) (last_note_time st),
   [PrintLevel (Z.of_nat (List.length notes)); PrintWatch] ++
   play_sequence outport notes ++ [PrintYourTurn]).

Definition game_over (st : state) : state * list output :=
  (mkState (sequence st) (level st) GameOver (expected_index st)
           (last_note st) (last_note_time st),
   [PrintWrong] ++
   (if (expected_index st <? List.length (sequence st))%nat
    then [PrintExpected (Z.of_nat (expected_index st) + 1)] else []) ++
   [PrintScore (level st - 1); PrintAgain]).

(** [last_note == note and (now - last_note_time) < DEBOUNCE_S]. *)
Definition debounced (st : state) (note : Z) (now : Q) : bool :=
  match last_note st with
  | Some n => (n =? note) && ltb_Q (now - last_note_time st) DEBOUNCE_S
  | None => false
  end.

(** The body of [for msg in inport.iter_pending()]. *)
Definition handle (outport : bool) (now : Q) (pick : Z) (msg : midi_msg)
           (st : state) : res (state * list output) :=
  match msg with
  | NoteOn note velocity =>
      if velocity =? 0 then Ok (st, [])
      else
        match note_to_pad_index note with
        | None => Ok (st, [])
        | Some idx =>
            if phase_eqb (phase st) GameOver then
              Ok (start_round outport pick
                    (mkState [] 1 (phase st) (expected_index st)
                             (last_note st) (last_note_time st)))
            else if negb (phase_eqb (phase st) Input) then Ok (st, [])
            else if debounced st note now then Ok (st, [])
            else
              let st := mkState (sequence st) (level st) (phase st)
                                (expected_index st) (Some note) now in
              let blink := send outport (NoteOn note 127) ++
                           [Wait (15 # 100)] ++
                           send outport (NoteOff note) ++
                           send outport (NoteOn note 0) in
              match nth_error (sequence st) (expected_index st) with
              | None => Raise IndexError
              | Some expected =>
                  if negb (note =? expected) then
                    let r := game_over st in
                    Ok (fst r, blink ++ snd r)
                  else
                    let st := mkState (sequence st) (level st) (phase st)
                                      (S (expected_index st))
                                      (last_note st) (last_note_time st) in
                    if (List.length (sequence st) <=? expected_index st)%nat
                    then
                      let r := start_round outport pick st in
                      Ok (fst r,
                          blink ++ [PrintPad (idx + 1); PrintCorrect] ++ snd r)
                    else Ok (st, blink ++ [PrintPad (idx + 1)])
              end
        end
  | _ => Ok (st, [])
  end.

End Console.

(** * Proofs: the leaderboard store *)

Section SortFacts.

Lemma map_res_keys (key : json -> res json) (es : list entry) :
  (forall e, key (entry_json e) = Ok (JInt (points e))) ->
  map_res key (map entry_json es) = Ok (map (fun e => JInt (points e)) es).
Proof.
  intros Hk. induction es as [|e es IH]; simpl; [reflexivity|].
  now rewrite Hk, IH.
Qed.

Lemma combine_keyed (es : list entry) :
  combine (map (fun e => JInt (points e)) es) (map entry_json es)
  = map keyed es.
Proof.
  induction es as [|e es IH]; [reflexivity|].
  cbn [map combine]. now rewrite IH.
Qed.

Lemma insert_desc_place (x : entry) (l : list entry) :
  insert_desc (keyed x) (map keyed l) = Ok (map keyed (place x l)).
Proof.
  induction l as [|y l IH]; simpl; [reflexivity|].
  destruct (points x <? points y); simpl; [now rewrite IH|reflexivity].
Qed.

Lemma sort_desc_ranked (l : list entry) :
  sort_desc (map keyed l) = Ok (map keyed (ranked l)).
Proof.
  induction l as [|x l IH]; simpl; [reflexivity|].
  rewrite IH. simpl. apply insert_desc_place.
Qed.

Lemma snd_keyed (l : list entry) : map snd (map keyed l) = map entry_json l.
Proof.
  induction l as [|e l IH]; [reflexivity|].
  cbn [map]. now rewrite IH.
Qed.

Lemma sorted_reverse_entries (key : json -> res json) (es : list entry) :
  (forall e, key (entry_json e) = Ok (JInt (points e))) ->
  sorted_reverse key (map entry_json es) = Ok (map entry_json (ranked es)).
Proof.
  intros Hk. unfold sorted_reverse.
  rewrite (map_res_keys key es Hk). simpl.
  rewrite combine_keyed, sort_desc_ranked. simpl.
  now rewrite snd_keyed.
Qed.

Lemma place_head (a : entry) (l : list entry) :
  HdRel (fun a b => points b <= points a) a l -> place a l = a :: l.
Proof.
  destruct l as [|h t]; simpl; [reflexivity|].
  intros H. inversion H; subst.
  destruct (Z.ltb_spec (points a) (points h)); [lia|reflexivity].
Qed.

(** Inserting behind a board that is already in order: the newcomer
    lands just after the entries scoring at least as much. *)
Lemma ranked_snoc (x : entry) (es : list entry) :
  descending es ->
  exists l1 l2,
    es = l1 ++ l2 /\
    Forall (fun e => points x <= points e) l1 /\
    Forall (fun e => points e < points x) l2 /\
    ranked (es ++ [x]) = l1 ++ x :: l2.
Proof.
  unfold descending.
  induction es as [|a es IH]; intros Hs.
  - exists [], []. simpl. repeat split; constructor.
  - inversion Hs as [|? ? Hs' Hd]; subst.
    destruct (IH Hs') as (l1 & l2 & -> & H1 & H2 & Hr).
    simpl. rewrite Hr.
    destruct l1 as [|h t].
    + simpl in *.
      destruct (Z.ltb_spec (points a) (points x)) as [Hlt|Hge].
      * exists [], (a :: l2). simpl.
        rewrite (place_head a l2 Hd).
        repeat split; auto.
      * exists [a], l2. simpl. repeat split; auto.
    + exists (a :: h :: t), l2. simpl in *.
      inversion Hd; subst. inversion H1; subst.
      destruct (Z.ltb_spec (points a) (points h)); [lia|].
      repeat split; auto.
      constructor; [lia|]. constructor; assumption.
Qed.

Lemma ranked_descending (es : list entry) : descending es -> ranked es = es.
Proof.
  unfold descending. induction es as [|a es IH]; intros Hs; [reflexivity|].
  inversion Hs; subst. simpl. rewrite IH by assumption.
  now apply place_head.
Qed.

Lemma Sorted_firstn {A} (R : A -> A -> Prop) (n : nat) (l : list A) :
  Sorted R l -> Sorted R (firstn n l).
Proof.
  revert l. induction n as [|n IH]; intros l Hs; simpl; [constructor|].
  destruct l as [|a l]; [constructor|].
  inversion Hs as [|? ? Hs' Hd]; subst. constructor; [now apply IH|].
  destruct l as [|b l]; [destruct n; constructor|].
  destruct n; simpl; constructor. now inversion Hd.
Qed.

Lemma insert_desc_in_order (x : json * json) (l r : list (json * json)) :
  Sorted in_order l -> insert_desc x l = Ok r -> Sorted in_order r.
Proof.
  revert r. induction l as [|y l IH]; simpl; intros r Hs Hr.
  - injection Hr as <-. repeat constructor.
  - destruct (py_lt (fst x) (fst y)) as [b|] eqn:Hb; simpl in Hr; [|discriminate].
    inversion Hs as [|? ? Hs' Hd]; subst.
    destruct b.
    + destruct (insert_desc x l) as [r'|] eqn:Hi; simpl in Hr; [|discriminate].
      injection Hr as <-.
      constructor; [now apply IH|].
      destruct l as [|z l]; simpl in Hi.
      * injection Hi as <-. constructor. now left.
      * destruct (py_lt (fst x) (fst z)) as [[]|]; simpl in Hi; try discriminate.
        -- destruct (insert_desc x l); simpl in Hi; [|discriminate].
           injection Hi as <-. constructor. now inversion Hd.
        -- injection Hi as <-. constructor. now left.
    + injection Hr as <-. constructor; [assumption|].
      constructor. now right.
Qed.

Lemma sort_desc_in_order (l s : list (json * json)) :
  sort_desc l = Ok s -> Sorted in_order s.
Proof.
  revert s. induction l as [|x l IH]; simpl; intros s Hs.
  - injection Hs as <-. constructor.
  - destruct (sort_desc l) as [s'|]; simpl in Hs; [|discriminate].
    eapply insert_desc_in_order; [|exact Hs]. now apply IH.
Qed.

Lemma insert_desc_In (x : json * json) (l r : list (json * json)) :
  insert_desc x l = Ok r -> forall p, In p r -> p = x \/ In p l.
Proof.
  revert r. induction l as [|y l IH]; simpl; intros r Hr p Hp.
  - injection Hr as <-. destruct Hp as [<-|[]]. now left.
  - destruct (py_lt (fst x) (fst y)) as [[]|]; simpl in Hr; try discriminate.
    + destruct (insert_desc x l) as [r'|] eqn:Hi; simpl in Hr; [|discriminate].
      injection Hr as <-. destruct Hp as [<-|Hp]; [right; now left|].
      destruct (IH _ eq_refl _ Hp); auto.
    + injection Hr as <-. destruct Hp as [<-|Hp]; auto.
Qed.

Lemma sort_desc_In (l s : list (json * json)) :
  sort_desc l = Ok s -> forall p, In p s -> In p l.
Proof.
  revert s. induction l as [|x l IH]; simpl; intros s Hs p Hp.
  - injection Hs as <-. assumption.
  - destruct (sort_desc l) as [s'|]; simpl in Hs; [|discriminate].
    destruct (insert_desc_In _ _ _ Hs _ Hp) as [->|Hin]; [now left|].
    right. now apply (IH _ eq_refl).
Qed.

Lemma map_res_combine (key : json -> res json) (data keys : list json) :
  map_res key data = Ok keys ->
  forall p, In p (combine keys data) -> key (snd p) = Ok (fst p).
Proof.
  revert keys. induction data as [|d data IH]; simpl; intros keys Hk p Hp.
  - injection Hk as <-. destruct Hp.
  - destruct (key d) as [k|] eqn:Hd; simpl in Hk; [|discriminate].
    destruct (map_res key data) as [ks|]; simpl in Hk; [|discriminate].
    injection Hk as <-. destruct Hp as [<-|Hp]; [exact Hd|].
    now apply (IH _ eq_refl).
Qed.

End SortFacts.

Lemma Sorted_map_snd (s : list (json * json)) :
  Sorted in_order s ->
  (forall p, In p s -> score_key (snd p) = Ok (fst p)) ->
  Sorted neighbours (map snd s).
Proof.
  induction s as [|p s IH]; simpl; intros Hs Hk; [constructor|].
  inversion Hs as [|? ? Hs' Hd]; subst.
  constructor; [apply IH; auto|].
  destruct s as [|q s]; simpl; constructor.
  inversion Hd; subst.
  exists (fst p), (fst q). repeat split; try (apply Hk; simpl; auto).
  destruct p, q. assumption.
Qed.

Lemma load_leaderboard_shape (fs : file_state) (board : list json) :
  load_leaderboard fs = Ok board ->
  (List.length board <= TOP_N)%nat /\ Sorted neighbours board.
Proof.
  assert (Hnil : (List.length (@nil json) <= TOP_N)%nat /\ Sorted neighbours [])
    by (split; [unfold TOP_N; simpl; lia|constructor]).
  unfold load_leaderboard.
  destruct fs as [| | | |v]; simpl; try (intros [= <-]; exact Hnil);
    try discriminate.
  destruct v; simpl; try (intros [= <-]; exact Hnil).
  unfold sorted_reverse.
  destruct (map_res _ items) as [keys|] eqn:Hkeys; simpl;
    [|destruct e; simpl; intros [= <-] || discriminate; exact Hnil].
  destruct (sort_desc (combine keys items)) as [s|] eqn:Hsort; simpl;
    [|destruct e; simpl; intros [= <-] || discriminate; exact Hnil].
  intros [= <-]. split; [apply firstn_le_length|].
  apply Sorted_firstn, Sorted_map_snd.
  - eapply sort_desc_in_order; eassumption.
  - intros p Hp. apply (map_res_combine _ _ _ Hkeys).
    eapply sort_desc_In; eassumption.
Qed.

Lemma score_key_entry (e : entry) : score_key (entry_json e) = Ok (JInt (points e)).
Proof. reflexivity. Qed.

Lemma getitem_entry (e : entry) :
  getitem (entry_json e) "score" = Ok (JInt (points e)).
Proof. reflexivity. Qed.

Lemma neighbours_descending (es : list entry) :
  Sorted neighbours (map entry_json es) -> descending es.
Proof.
  unfold descending.
  induction es as [|a es IH]; simpl; intros Hs; [constructor|].
  inversion Hs as [|? ? Hs' Hd]; subst. constructor; [auto|].
  destruct es as [|b es]; simpl in *; constructor.
  inversion Hd as [|? ? (ka & kb & Ha & Hb & Ho)]; subst.
  rewrite score_key_entry in Ha, Hb.
  injection Ha as <-. injection Hb as <-.
  destruct Ho as [Ho|Ho]; simpl in Ho; injection Ho as Ho; lia.
Qed.

(** A file that loads as the board [es] holds a leaderboard: at most
    five entries, in descending order. *)
Lemma load_leaderboard_entries (fs : file_state) (es : list entry) :
  load_leaderboard fs = Ok (map entry_json es) ->
  (List.length es <= 5)%nat /\ descending es.
Proof.
  intros H. destruct (load_leaderboard_shape _ _ H) as [Hl Hs].
  rewrite length_map in Hl. split; [exact Hl|].
  now apply neighbours_descending.
Qed.

Lemma load_leaderboard_stored (es : list entry) :
  load_leaderboard (stored es) = Ok (map entry_json (firstn TOP_N (ranked es))).
Proof.
  unfold load_leaderboard, stored. simpl.
  rewrite (sorted_reverse_entries (fun e => get e "score" (JInt 0)) es
             score_key_entry). simpl.
  now rewrite firstn_map.
Qed.

Lemma load_leaderboard_board (es : list entry) :
  (List.length es <= 5)%nat -> descending es ->
  load_leaderboard (stored es) = Ok (map entry_json es).
Proof.
  intros Hl Hs. rewrite load_leaderboard_stored, ranked_descending by assumption.
  now rewrite firstn_all2.
Qed.

Lemma descending_lowest (es : list entry) (low : entry) :
  descending es ->
  forall e, In e es -> points (last es low) <= points e.
Proof.
  unfold descending. intros Hs.
  apply Sorted_StronglySorted in Hs; [|intros x y z; lia].
  induction Hs as [|a l Hl IH Hall]; intros e He; [destruct He|].
  destruct l as [|b l].
  - destruct He as [<-|[]]. simpl. lia.
  - change (last (a :: b :: l) low) with (last (b :: l) low).
    destruct He as [<-|He]; [|now apply IH].
    rewrite Forall_forall in Hall.
    apply Hall. clear. revert b.
    induction l as [|c l IHl]; intros b; [now left|].
    right. apply IHl.
Qed.

(** C6: [is_top_score] returns, and it returns true exactly when the
    board has fewer than five entries and the score is positive, or the
    board is full and the score is strictly greater than that of its
    fifth entry, which is the lowest on the board.  The board is any
    leaderboard the persisted file loads as. *)
Theorem is_top_score_iff (fs : file_state) (es : list entry) (score : Z) :
  load_leaderboard fs = Ok (map entry_json es) ->
  exists b, is_top_score fs score = Ok b /\
    (b = true <->
       ((List.length es < 5)%nat /\ 0 < score) \/
       (exists low, List.length es = 5%nat /\ nth_error es 4 = Some low /\
                    (forall e, In e es -> points low <= points e) /\
                    points low < score)).
Proof.
  intros Hload.
  destruct (load_leaderboard_entries _ _ Hload) as [Hlen Hdesc].
  unfold is_top_score. rewrite Hload. simpl. rewrite length_map.
  unfold TOP_N.
  destruct (Nat.ltb_spec (List.length es) 5) as [Hlt|Hge].
  - exists (0 <? score). split; [reflexivity|].
    rewrite Z.ltb_lt. split.
    + intros H. left. split; assumption.
    + intros [[_ H]|(low & Hl & _)]; [assumption|lia].
  - assert (H5 : List.length es = 5%nat) by lia.
    destruct es as [|e1 [|e2 [|e3 [|e4 [|e5 [|e6 es]]]]]]; try discriminate H5.
    pose proof (descending_lowest _ e5 Hdesc) as Hlow.
    simpl in *.
    exists (points e5 <? score). split; [reflexivity|].
    rewrite Z.ltb_lt. split.
    + intros H. right. exists e5. repeat split; auto.
    + intros [[Hl _]|(low & _ & [= <-] & _ & H)]; [lia|assumption].
Qed.

(** The running example: the full board of scenario B admits 3 (it beats
    the 2 in fifth place) and turns away 2. *)
Lemma is_top_score_iff_witness :
  load_leaderboard (stored board_B) = Ok (map entry_json board_B) /\
  exists b, is_top_score (stored board_B) 3 = Ok b /\
    (b = true <->
       ((List.length board_B < 5)%nat /\ 0 < 3) \/
       (exists low, List.length board_B = 5%nat /\
                    nth_error board_B 4 = Some low /\
                    (forall e, In e board_B -> points low <= points e) /\
                    points low < 3)).
Proof.
  split; [reflexivity|].
  apply (is_top_score_iff (stored board_B) board_B 3). reflexivity.
Defined.

(** C7: adding an entry whose score ties with entries already on the
    board puts it behind them.  The board splits into the entries scoring
    at least as much as the newcomer and those scoring less; the newcomer
    goes between the two parts and the result is cut to five.  So every
    entry scoring at least as much (in particular every tied one) stays at
    its index, ahead of the newcomer and inside the top five; only entries
    of strictly lower score can be pushed off. *)
Theorem add_score_tie_stable
  (fs : file_state) (es : list entry) (who : string) (score : Z) :
  load_leaderboard fs = Ok (map entry_json es) ->
  let new := {| name := who; points := score |} in
  exists l1 l2,
    es = l1 ++ l2 /\
    Forall (fun e => score <= points e) l1 /\
    Forall (fun e => points e < score) l2 /\
    add_score fs who (JInt score)
      = Ok (stored (firstn 5 (l1 ++ new :: l2)),
            map entry_json (firstn 5 (l1 ++ new :: l2))) /\
    (forall i e, nth_error es i = Some e -> score <= points e ->
                 nth_error (firstn 5 (l1 ++ new :: l2)) i = Some e).
Proof.
  intros Hload new.
  destruct (load_leaderboard_entries _ _ Hload) as [Hlen Hdesc].
  destruct (ranked_snoc new es Hdesc) as (l1 & l2 & Hes & H1 & H2 & Hr).
  exists l1, l2. repeat split; try assumption.
  - unfold add_score. rewrite Hload. simpl.
    change (JObj [("name", JStr who); ("score", JInt score)])
      with (entry_json new).
    change [entry_json new] with (map entry_json [new]).
    rewrite <- map_app.
    rewrite (sorted_reverse_entries (fun e => getitem e "score") _ getitem_entry).
    simpl. rewrite Hr, firstn_map. reflexivity.
  - intros i e Hi Hge. subst es.
    assert (Hin : (i < List.length l1)%nat).
    { destruct (Nat.lt_ge_cases i (List.length l1)) as [|Hle]; [assumption|].
      rewrite nth_error_app2 in Hi by assumption.
      apply nth_error_In in Hi. rewrite Forall_forall in H2.
      specialize (H2 _ Hi). simpl in H2. lia. }
    rewrite length_app in Hlen.
    rewrite nth_error_firstn.
    destruct (Nat.ltb_spec i 5); [|lia].
    rewrite nth_error_app1 in Hi |- * by assumption. exact Hi.
Qed.

Lemma add_score_tie_stable_witness :
  load_leaderboard (stored board_B) = Ok (map entry_json board_B) /\
  let new := {| name := "Zed"; points := 4 |} in
  exists l1 l2,
    board_B = l1 ++ l2 /\
    Forall (fun e => 4 <= points e) l1 /\
    Forall (fun e => points e < 4) l2 /\
    add_score (stored board_B) "Zed" (JInt 4)
      = Ok (stored (firstn 5 (l1 ++ new :: l2)),
            map entry_json (firstn 5 (l1 ++ new :: l2))) /\
    (forall i e, nth_error board_B i = Some e -> 4 <= points e ->
                 nth_error (firstn 5 (l1 ++ new :: l2)) i = Some e).
Proof.
  split; [reflexivity|].
  apply (add_score_tie_stable (stored board_B) board_B "Zed" 4). reflexivity.
Defined.

(** [add_score] on a file that loads as the board [es]. *)
Lemma add_score_entries
  (fs : file_state) (es : list entry) (who : string) (score : Z) :
  load_leaderboard fs = Ok (map entry_json es) ->
  let board := firstn 5 (ranked (es ++ [ {| name := who; points := score |} ])) in
  add_score fs who (JInt score) = Ok (stored board, map entry_json board).
Proof.
  intros Hload. unfold add_score. rewrite Hload. simpl.
  change (JObj [("name", JStr who); ("score", JInt score)])
    with (entry_json {| name := who; points := score |}).
  change [entry_json {| name := who; points := score |}]
    with (map entry_json [ {| name := who; points := score |} ]).
  rewrite <- map_app.
  rewrite (sorted_reverse_entries (fun e => getitem e "score") _ getitem_entry).
  simpl. now rewrite firstn_map.
Qed.

(** C3 fails on the code: a file holding the JSON list [[1]] makes
    [load_leaderboard] raise.  The key function calls [.get] on the
    integer; the [AttributeError] is not among the exceptions the
    [except] clause catches. *)
Theorem load_leaderboard_raises :
  load_leaderboard (FileJson (JArr [JInt 1])) = Raise AttributeError.
Proof. reflexivity. Qed.

(** The file states the [except] clause and the [isinstance] test do
    cover load as the empty board. *)
Lemma load_leaderboard_tolerated (fs : file_state) :
  match fs with
  | FileAbsent | FileUnreadable | FileGarbage => True
  | FileJson (JArr _) | FileUndecodable => False
  | FileJson _ => True
  end ->
  load_leaderboard fs = Ok [].
Proof.
  destruct fs as [| | | |v]; try reflexivity; try contradiction.
  destruct v; try reflexivity; contradiction.
Qed.

(** Two entries whose scores do not compare raise as well. *)
Lemma load_leaderboard_mixed_scores :
  load_leaderboard
    (FileJson (JArr [JObj [("name", JStr "A"); ("score", JStr "9")];
                     JObj [("name", JStr "B"); ("score", JInt 7)]]))
  = Raise TypeError.
Proof. reflexivity. Qed.

(** C1 as stated fails: on the full board of scenario B a submission of
    3 is not turned away, it replaces the entry that scored 2. *)
Lemma submit_name_scenario_B_changes_board :
  submit_name (stored board_B) "Zed" (JInt 3)
    = Ok (stored (board_B_after "Zed"),
          Some (map entry_json (board_B_after "Zed"))) /\
  stored (board_B_after "Zed") <> stored board_B /\
  ~ (exists shown,
        submit_name (stored board_B) "Zed" (JInt 3)
        = Ok (stored board_B, shown)).
Proof.
  assert (H : submit_name (stored board_B) "Zed" (JInt 3)
              = Ok (stored (board_B_after "Zed"),
                    Some (map entry_json (board_B_after "Zed"))))
    by reflexivity.
  split; [exact H|]. split; [discriminate|].
  intros [shown Hs]. rewrite H in Hs. discriminate Hs.
Qed.

(** C1, amended: on the full board of scenario B a submission of 3 under
    a non-empty name takes fifth place (3 beats the 2 there) and the
    persisted board becomes 10, 8, 6, 4, 3.  A submission to a full board
    leaves the persisted board as it was when its score does not exceed
    the lowest score on it. *)
Theorem submit_name_full_board :
  (forall who,
      nonempty (clean_name who) = true ->
      submit_name (stored board_B) who (JInt 3)
      = Ok (stored (board_B_after (clean_name who)),
            Some (map entry_json (board_B_after (clean_name who))))) /\
  (forall es low who score,
      descending es -> List.length es = 5%nat -> nth_error es 4 = Some low ->
      nonempty (clean_name who) = true -> 0 < score -> score <= points low ->
      submit_name (stored es) who (JInt score)
      = Ok (stored es, Some (map entry_json es))).
Proof.
  split.
  - intros who Hne. unfold submit_name. rewrite Hne. reflexivity.
  - intros es low who score Hdesc Hlen Hlow Hne Hpos Hle.
    unfold submit_name. rewrite Hne. simpl.
    destruct (Z.ltb_spec 0 score) as [_|]; [|lia].
    assert (Hload : load_leaderboard (stored es) = Ok (map entry_json es))
      by (apply load_leaderboard_board; [lia|assumption]).
    rewrite (add_score_entries _ _ (clean_name who) score Hload). simpl.
    set (new := {| name := clean_name who; points := score |}).
    destruct (ranked_snoc new es Hdesc) as (l1 & l2 & Hes & H1 & H2 & Hr).
    rewrite Hr.
    assert (Hl2 : l2 = []).
    { destruct l2 as [|x l2]; [reflexivity|exfalso].
      inversion H2 as [|? ? Hx _]; subst.
      assert (Hin : In x (l1 ++ x :: l2)) by (apply in_elt).
      pose proof (descending_lowest _ low Hdesc x Hin) as Hmin.
      assert (Hlast : last (l1 ++ x :: l2) low = low).
      { destruct l1 as [|a1 [|a2 [|a3 [|a4 [|a5 [|a6 l1]]]]]];
          destruct l2 as [|b1 [|b2 [|b3 [|b4 [|b5 l2]]]]];
          simpl in Hlen; try discriminate Hlen;
          simpl in Hlow; injection Hlow as <-; reflexivity. }
      rewrite Hlast in Hmin. simpl in Hx. lia. }
    subst l2. rewrite app_nil_r in Hes. subst l1.
    rewrite firstn_app, Hlen, firstn_all2 by lia.
    simpl. rewrite app_nil_r. reflexivity.
Qed.

Lemma submit_name_full_board_witness :
  nonempty (clean_name "  Zed ") = true /\
  submit_name (stored board_B) "  Zed " (JInt 3)
    = Ok (stored (board_B_after "Zed"),
          Some (map entry_json (board_B_after "Zed"))) /\
  descending board_B /\ List.length board_B = 5%nat /\
  nth_error board_B 4 = Some {| name := "E"; points := 2 |} /\
  0 < 2 /\ 2 <= points {| name := "E"; points := 2 |} /\
  submit_name (stored board_B) "  Zed " (JInt 2)
    = Ok (stored board_B, Some (map entry_json board_B)).
Proof.
  assert (Hd : descending board_B)
    by (unfold descending, board_B; repeat constructor; simpl; lia).
  split; [reflexivity|]. split.
  - apply (proj1 submit_name_full_board "  Zed "). reflexivity.
  - split; [exact Hd|]. split; [reflexivity|]. split; [reflexivity|].
    split; [lia|]. split; [simpl; lia|].
    apply (proj2 submit_name_full_board board_B
             {| name := "E"; points := 2 |} "  Zed " 2);
      [exact Hd|reflexivity|reflexivity|reflexivity|lia|simpl; lia].
Defined.

(** * Proofs: the game thread *)

(** ** The rules of [holds] for a steady invariant *)

Section Invariant.

Variable E : env.
Variable I : world -> Prop.
Hypothesis I_steady : steady I.

Let I_record := steady_record I I_steady.
Let I_env := steady_env I I_steady.
Let I_idle := steady_idle I I_steady.
Let I_stop_requested := steady_stop_requested I I_steady.
Let I_round := steady_round I I_steady.
Let I_input := steady_input I I_steady.
Let I_gameover := steady_gameover I I_steady.
Let I_advance := steady_advance I I_steady.
Let I_restart := steady_restart I I_steady.
Let I_inport := steady_inport I I_steady.
Let I_opened := steady_opened I I_steady.

Local Open Scope game_scope.

Lemma holds_ret {A} (P : game -> Prop) (a : A) :
  holds I P (ret a) (fun a' g => a' = a /\ P g).
Proof. intros w HI HP. simpl. auto. Qed.

Lemma holds_bind {A B} (P : game -> Prop) (R : A -> game -> Prop)
      (Q : B -> game -> Prop) (m : M A) (k : A -> M B) :
  holds I P m R -> (forall a, holds I (R a) (k a) Q) -> holds I P (bind m k) Q.
Proof.
  intros Hm Hk w HI HP. unfold bind. specialize (Hm w HI HP).
  destruct (m w) as [a w'|e w'|w']; try assumption.
  destruct Hm as [HI' HR]. exact (Hk a w' HI' HR).
Qed.

Lemma holds_weaken {A} (P P' : game -> Prop) (Q Q' : A -> game -> Prop)
      (m : M A) :
  holds I P m Q -> (forall g, P' g -> P g) -> (forall a g, Q a g -> Q' a g) ->
  holds I P' m Q'.
Proof.
  intros Hm HP HQ w HI HP'. specialize (Hm w HI (HP _ HP')).
  destruct (m w); try assumption. destruct Hm. split; auto.
Qed.

Lemma holds_post {A} (P : game -> Prop) (Q Q' : A -> game -> Prop) (m : M A) :
  holds I P m Q -> (forall a g, Q a g -> Q' a g) -> holds I P m Q'.
Proof. intros Hm HQ. eapply holds_weaken; eauto. Qed.

Lemma holds_gets {A} (P : game -> Prop) (f : game -> A) :
  holds I P (gets f) (fun a g => a = f g /\ P g).
Proof. intros w HI HP. simpl. auto. Qed.

Lemma holds_modify (P : game -> Prop) (Q : game -> Prop) (f : game -> game) :
  (forall w, I w -> P (vars w) -> I (set_vars (f (vars w)) w)) ->
  (forall g, P g -> Q (f g)) ->
  holds I P (modify f) (fun _ => Q).
Proof. intros HIf HQ w HI HP. simpl. split; [apply HIf|apply HQ]; auto. Qed.

Lemma holds_lift {A} (P : game -> Prop) (r : res A) :
  holds I P (lift r) (fun _ => P).
Proof. intros w HI HP. unfold lift. destruct r; auto. Qed.

Lemma holds_timeout {A} (P : game -> Prop) (Q : A -> game -> Prop) :
  holds I P timeout Q.
Proof. intros w HI HP. exact HI. Qed.

Lemma holds_emit (P : game -> Prop) (ev : event) :
  holds I P (emit ev) (fun _ => P).
Proof. intros w HI HP. simpl. auto. Qed.

Lemma holds_send (P : game -> Prop) (m : midi_msg) :
  holds I P (send m) (fun _ => P).
Proof.
  intros w HI HP. unfold send. destruct (outport (vars w)); simpl; auto.
Qed.

Lemma holds_sleep (P : game -> Prop) (seconds : Q) :
  holds I P (sleep E seconds) (fun _ => P).
Proof.
  intros w HI HP. unfold sleep. simpl. split; [|exact HP].
  apply (I_env (record (Sleep seconds (arrivals E (slept w))) w));
    [reflexivity|reflexivity|]. now apply I_record.
Qed.

Lemma holds_load_board (P : game -> Prop) :
  holds I P load_board (fun _ => P).
Proof.
  intros w HI HP. unfold load_board, lift.
  destruct (load_leaderboard (leaderboard_file w)); auto.
Qed.

Lemma holds_top_score (P : game -> Prop) (s : Z) :
  holds I P (top_score s) (fun _ => P).
Proof.
  intros w HI HP. unfold top_score, lift.
  destruct (is_top_score (leaderboard_file w) s); auto.
Qed.

Lemma holds_random_choice (P : game -> Prop) :
  holds I P (random_choice E) (fun _ => P).
Proof.
  intros w HI HP. simpl. split; [|exact HP].
  now apply (I_env w).
Qed.

Lemma holds_time_time (P : game -> Prop) :
  holds I P (time_time E) (fun _ => P).
Proof.
  intros w HI HP. simpl. split; [|exact HP]. now apply (I_env w).
Qed.

Lemma holds_find_and_open (P : game -> Prop) :
  holds I P (find_and_open E) (fun _ => P).
Proof.
  intros w HI HP. simpl. split; [|exact HP]. now apply (I_env w).
Qed.

Lemma holds_drain_commands (P : game -> Prop) :
  holds I P drain_commands (fun _ => P).
Proof.
  intros w HI HP. simpl. split; [|exact HP]. now apply (I_env w).
Qed.

Lemma holds_poll (P : game -> Prop) :
  holds I P poll (fun _ => P).
Proof.
  intros w HI HP. unfold poll. destruct (pending w); simpl; auto.
  split; [|exact HP]. now apply (I_env w).
Qed.

Lemma holds_go_idle (P : game -> Prop) :
  holds I P go_idle (fun _ g => phase g = Idle).
Proof.
  unfold go_idle.
  eapply holds_bind;
    [apply (holds_modify _ (fun g => phase g = Idle));
     [intros; now apply I_idle|reflexivity]|intros ?].
  eapply holds_bind; [apply holds_emit|intros ?].
  eapply holds_bind; [apply holds_emit|intros ?].
  eapply holds_bind; [apply holds_load_board|intros board].
  apply holds_emit.
Qed.

Lemma holds_light_pad (P : game -> Prop) (note : Z) :
  holds I P (light_pad E note) (fun _ => P).
Proof.
  unfold light_pad.
  eapply holds_bind with (R := fun _ => P);
    [destruct (note_to_pad_index note);
     [apply holds_emit|eapply holds_post; [apply holds_ret|now intros ? ? []]]
    |intros ?].
  eapply holds_bind; [apply holds_send|intros ?].
  eapply holds_bind; [apply holds_sleep|intros ?].
  eapply holds_bind; [apply holds_send|intros ?].
  eapply holds_bind; [apply holds_send|intros ?].
  eapply holds_bind with (R := fun _ => P);
    [destruct (note_to_pad_index note);
     [apply holds_emit|eapply holds_post; [apply holds_ret|now intros ? ? []]]
    |intros ?].
  apply holds_sleep.
Qed.

Lemma holds_playback (P : game -> Prop) (notes : list Z) :
  holds I P (playback E notes)
        (fun returned g => if returned then phase g = Idle else P g).
Proof.
  induction notes as [|note rest IH]; simpl.
  - eapply holds_post; [apply holds_ret|]. now intros ? ? [-> ?].
  - eapply holds_bind; [apply holds_drain_commands|intros cmd].
    destruct (is_stop cmd).
    + eapply holds_bind;
        [apply (holds_modify _ (fun _ => True));
         [intros; now apply I_stop_requested|trivial]|intros ?].
      eapply holds_bind; [apply holds_go_idle|intros ?].
      eapply holds_post; [apply holds_ret|]. now intros ? ? [-> ?].
    + eapply holds_bind; [apply holds_light_pad|intros ?]. exact IH.
Qed.

Lemma holds_start_round (P : game -> Prop) :
  holds I P (start_round E) (fun _ g => phase g = Idle \/ phase g = Input).
Proof.
  unfold start_round.
  eapply holds_bind; [apply holds_random_choice|intros note].
  eapply holds_bind;
    [apply (holds_modify _ (fun g => phase g = Playing));
     [intros; now apply I_round|reflexivity]|intros ?].
  eapply holds_bind; [apply holds_gets|intros s].
  eapply holds_bind;
    [eapply holds_weaken with (P := fun g => phase g = Playing);
     [apply holds_emit|now intros ? []|intros ? ? H; exact H]|intros ?].
  eapply holds_bind; [apply holds_emit|intros ?].
  eapply holds_bind; [apply holds_gets|intros notes].
  eapply holds_bind;
    [eapply holds_weaken with (P := fun g => phase g = Playing);
     [apply holds_playback|now intros ? []|intros ? ? H; exact H]
    |intros returned].
  destruct returned.
  - eapply holds_post; [apply holds_ret|]. intros ? ? [_ ?]. now left.
  - eapply holds_bind; [apply holds_drain_commands|intros cmd].
    destruct (is_stop cmd).
    + eapply holds_post; [apply holds_go_idle|]. intros ? ? ?. now left.
    + eapply holds_bind;
        [apply (holds_modify _ (fun g => phase g = Input));
         [intros; now apply I_input|reflexivity]|intros ?].
      eapply holds_post; [apply holds_emit|]. intros ? ? ?. now right.
Qed.

Lemma holds_game_over (P : game -> Prop) :
  holds I P game_over (fun _ g => phase g = GameOver).
Proof.
  unfold game_over.
  eapply holds_bind; [apply holds_gets|intros final_score].
  eapply holds_bind;
    [apply (holds_modify _ (fun g => phase g = GameOver));
     [intros; now apply I_gameover|reflexivity]|intros ?].
  eapply holds_bind; [apply holds_emit|intros ?].
  eapply holds_bind; [apply holds_top_score|intros top].
  apply holds_emit.
Qed.

(** The debounce update is the one assignment an invariant about
    [DebounceState] does not survive; what follows needs it. *)
Hypothesis I_debounce :
  forall w note now, I w ->
    I (set_vars (vars w |> set_last_note (Some note) |> set_last_note_time now) w).

Lemma holds_anything {A} (P : game -> Prop) (Q : A -> game -> Prop) (m : M A) :
  holds I P m Q -> holds I P m anything.
Proof. intros H. eapply holds_post; [exact H|]. intros; exact Logic.I. Qed.

Lemma holds_ret_if {A} (P : game -> Prop) (Q : A -> game -> Prop) (a : A) :
  (forall g, P g -> Q a g) -> holds I P (ret a) Q.
Proof. intros H w HI HP. simpl. auto. Qed.

Lemma holds_evaluate (P : game -> Prop) (note idx : Z) (now : Q) :
  holds I P (evaluate E note idx now) anything.
Proof.
  unfold evaluate.
  eapply holds_bind;
    [apply (holds_modify _ (fun _ => True));
     [intros; now apply I_debounce|trivial]|intros ?].
  eapply holds_bind; [apply holds_send|intros ?].
  eapply holds_bind; [apply holds_sleep|intros ?].
  eapply holds_bind; [apply holds_send|intros ?].
  eapply holds_bind; [apply holds_send|intros ?].
  eapply holds_bind; [apply holds_gets|intros g].
  eapply holds_bind; [apply holds_lift|intros expected].
  destruct (negb (note =? expected)).
  - eapply holds_bind; [apply holds_emit|intros ?].
    eapply holds_bind; [apply holds_game_over|intros ?].
    eapply holds_anything, holds_ret.
  - eapply holds_bind; [apply holds_emit|intros ?].
    eapply holds_bind;
      [apply (holds_modify _ (fun _ => True));
       [intros; now apply I_advance|trivial]|intros ?].
    eapply holds_bind; [apply holds_gets|intros g'].
    destruct (List.length (sequence g') <=? expected_index g')%nat.
    + eapply holds_bind; [apply holds_sleep|intros ?].
      eapply holds_bind; [apply holds_start_round|intros ?].
      eapply holds_bind; [apply holds_gets|intros ph].
      destruct (phase_eqb ph Idle); eapply holds_anything, holds_ret.
    + eapply holds_anything, holds_ret.
Qed.

Lemma holds_handle (P : game -> Prop) (msg : midi_msg) :
  holds I P (handle E msg) anything.
Proof.
  unfold handle. destruct msg as [note velocity| |];
    try (eapply holds_anything, holds_ret).
  destruct (velocity =? 0); [eapply holds_anything, holds_ret|].
  destruct (note_to_pad_index note) as [idx|];
    [|eapply holds_anything, holds_ret].
  eapply holds_bind; [apply holds_gets|intros ph].
  destruct (negb (phase_eqb ph Input)); [eapply holds_anything, holds_ret|].
  eapply holds_bind; [apply holds_time_time|intros now].
  eapply holds_bind; [apply holds_gets|intros g].
  destruct (debounced g note now); [eapply holds_anything, holds_ret|].
  apply holds_evaluate.
Qed.

Lemma holds_message_loop (P : game -> Prop) (fuel : nat) :
  holds I P (message_loop E fuel) anything.
Proof.
  revert P. induction fuel as [|fuel IH]; intros P; simpl;
    [apply holds_timeout|].
  eapply holds_bind; [apply holds_poll|intros m].
  destruct m as [msg|]; [|eapply holds_anything, holds_ret].
  eapply holds_bind; [apply holds_handle|intros f].
  destruct f; [apply IH|eapply holds_anything, holds_ret].
Qed.

Lemma holds_try_connect_midi :
  holds I resting (try_connect_midi E) (fun _ => resting).
Proof.
  unfold try_connect_midi.
  eapply holds_bind; [apply holds_gets|intros ok].
  destruct ok.
  - apply holds_ret_if. now intros g [_ H].
  - eapply holds_bind;
      [eapply holds_weaken with (P := resting);
       [apply holds_find_and_open|now intros ? []|intros ? ? H; exact H]
      |intros r].
    destruct r as [| |has_output].
    + apply holds_ret_if. auto.
    + eapply holds_bind;
        [apply (holds_modify _ resting);
         [intros; now apply I_inport|intros g H; exact H]|intros ?].
      apply holds_ret_if. auto.
    + eapply holds_bind;
        [apply (holds_modify _ resting);
         [intros; now apply I_opened|intros g H; exact H]|intros ?].
      apply holds_ret_if. auto.
Qed.

Lemma holds_restart : holds I resting (restart E) anything.
Proof.
  unfold restart.
  eapply holds_bind; [apply holds_gets|intros ok].
  eapply holds_bind with (R := fun _ => resting).
  { destruct ok.
    - apply holds_ret_if. now intros g [_ H].
    - eapply holds_weaken;
        [apply holds_try_connect_midi|now intros ? [_ ?]|intros ? ? H; exact H]. }
  intros ?.
  eapply holds_bind; [apply holds_gets|intros ok'].
  destruct (negb ok').
  - eapply holds_bind; [apply holds_emit|intros ?].
    eapply holds_bind; [apply holds_go_idle|intros ?].
    eapply holds_anything, holds_ret.
  - eapply holds_bind;
      [apply (holds_modify _ (fun _ => True));
       [intros w HI [_ H]; now apply I_restart|trivial]|intros ?].
    eapply holds_bind; [apply holds_start_round|intros ?].
    eapply holds_bind; [apply holds_gets|intros ph].
    eapply holds_anything, holds_ret.
Qed.

Lemma phase_eqb_eq (a b : Phase) : phase_eqb a b = true <-> a = b.
Proof. destruct a, b; simpl; split; congruence. Qed.

Lemma holds_iteration (P : game -> Prop) (fuel : nat) :
  holds I P (iteration E fuel) anything.
Proof.
  unfold iteration.
  eapply holds_bind; [apply holds_drain_commands|intros cmd].
  eapply holds_bind; [apply holds_gets|intros ph].
  destruct (is_stop cmd && negb (phase_eqb ph Idle));
    [eapply holds_anything, holds_go_idle|].
  eapply holds_bind with (R := anything).
  { destruct (is_start cmd) ; simpl; [|eapply holds_anything, holds_ret].
    destruct (phase_eqb ph Idle || phase_eqb ph GameOver) eqn:Hph;
      [|eapply holds_anything, holds_ret].
    eapply holds_weaken; [apply holds_restart| |intros ? ? H; exact H].
    intros g [-> _]. unfold resting.
    apply orb_true_iff in Hph. now rewrite !phase_eqb_eq in Hph. }
  intros skip. destruct skip; [eapply holds_anything, holds_ret|].
  eapply holds_bind; [apply holds_gets|intros ph'].
  destruct (phase_eqb ph' Idle || phase_eqb ph' GameOver);
    [eapply holds_anything, holds_sleep|].
  eapply holds_bind; [apply holds_gets|intros opened].
  destruct (negb opened); [eapply holds_anything, holds_sleep|].
  eapply holds_bind; [apply holds_message_loop|intros ?].
  eapply holds_anything, holds_sleep.
Qed.

Lemma holds_main_loop (P : game -> Prop) (fuel : nat) :
  holds I P (main_loop E fuel) anything.
Proof.
  revert P. induction fuel as [|fuel IH]; intros P; simpl;
    [apply holds_timeout|].
  eapply holds_bind; [apply holds_iteration|intros ?]. apply IH.
Qed.

Lemma holds_reporting (P : game -> Prop) (m : M unit) :
  holds I P m anything -> holds I P (reporting m) anything.
Proof.
  intros Hm w HI HP. specialize (Hm w HI HP). unfold reporting.
  destruct (m w) as [a w'|e w'|w']; try assumption.
  simpl. split; [now apply I_record|exact Logic.I].
Qed.

Lemma holds_game_thread (fuel : nat) :
  holds I resting (game_thread E fuel) anything.
Proof.
  unfold game_thread.
  eapply holds_bind; [apply holds_try_connect_midi|intros ?].
  eapply holds_bind; [apply holds_go_idle|intros ?].
  apply holds_reporting, holds_main_loop.
Qed.

(** Every world a run of the thread passes through or ends in
    satisfies the invariant. *)
Lemma game_thread_invariant (fuel : nat) (fs : file_state) :
  I (boot fs) -> I (world_of (game_thread E fuel (boot fs))).
Proof.
  intros HI.
  assert (H := holds_game_thread fuel (boot fs) HI (or_introl eq_refl)).
  destruct (game_thread E fuel (boot fs)); simpl; tauto.
Qed.

End Invariant.

(** ** The score while a round is played or repeated *)

Lemma score_kept_assign (g : game) (w : world) :
  score_ok g -> score_kept w -> score_kept (set_vars g w).
Proof. intros Hg [_ Ht]. split; assumption. Qed.

Lemma score_kept_steady : steady score_kept.
Proof.
  constructor.
  - intros a w [Hv Ht]. split; [exact Hv|]. simpl.
    apply Forall_app. split; [exact Ht|]. now constructor.
  - unfold score_kept. intros w w' -> ->. trivial.
  - intros w H. apply score_kept_assign; [|exact H].
    intros [Hp|Hp]; discriminate Hp.
  - intros w H. apply score_kept_assign; [|exact H]. apply H.
  - intros w note H. apply score_kept_assign; [|exact H].
    intros _. reflexivity.
  - intros w H Hp. apply score_kept_assign; [|exact H].
    intros _. simpl. apply H. now left.
  - intros w H. apply score_kept_assign; [|exact H].
    intros [Hp|Hp]; discriminate Hp.
  - intros w H. apply score_kept_assign; [|exact H]. apply H.
  - intros w H Hp. apply score_kept_assign; [|exact H].
    intros Hq. simpl in Hq. destruct Hp as [Hp|Hp], Hq as [Hq|Hq]; congruence.
  - intros w H. apply score_kept_assign; [|exact H]. apply H.
  - intros w b H. apply score_kept_assign; [|exact H]. apply H.
Qed.

(** C4: in every state the thread is in when it emits an event, drives
    the device or goes to sleep, and in the state any cut of a run ends
    in, a phase of playing or input comes with a score of the length of
    the sequence minus one. *)
Theorem score_is_length_minus_one (E : env) (fuel : nat) (fs : file_state) :
  let w := world_of (game_thread E fuel (boot fs)) in
  (forall o, In o (trace w) ->
     phase (snap o) = Playing \/ phase (snap o) = Input ->
     score (snap o) = Z.of_nat (List.length (sequence (snap o))) - 1) /\
  (phase (vars w) = Playing \/ phase (vars w) = Input ->
   score (vars w) = Z.of_nat (List.length (sequence (vars w))) - 1).
Proof.
  assert (H : score_kept (world_of (game_thread E fuel (boot fs)))).
  { apply game_thread_invariant.
    - exact score_kept_steady.
    - intros w note now H. apply score_kept_assign; [|exact H]. apply H.
    - split; [|constructor]. intros [Hp|Hp]; discriminate Hp. }
  destruct H as [Hv Ht]. split; [|exact Hv].
  intros o Ho. rewrite Forall_forall in Ht. exact (Ht o Ho).
Qed.

(** ** Running the thread by hand *)

Lemma bind_gets {A B} (f : game -> A) (k : A -> M B) (w : world) :
  bind (gets f) k w = k (f (vars w)) w.
Proof. reflexivity. Qed.

Lemma bind_modify {B} (f : game -> game) (k : unit -> M B) (w : world) :
  bind (modify f) k w = k tt (set_vars (f (vars w)) w).
Proof. reflexivity. Qed.

Lemma bind_emit {B} (ev : event) (k : unit -> M B) (w : world) :
  bind (emit ev) k w = k tt (record (Emit ev) w).
Proof. reflexivity. Qed.

Lemma bind_send {B} (m : midi_msg) (k : unit -> M B) (w : world) :
  bind (send m) k w = k tt (world_of (send m w)).
Proof. reflexivity. Qed.

Lemma bind_sleep {B} (E : env) (s : Q) (k : unit -> M B) (w : world) :
  bind (sleep E s) k w = k tt (world_of (sleep E s w)).
Proof. reflexivity. Qed.

Lemma bind_time_time {B} (E : env) (k : Q -> M B) (w : world) :
  bind (time_time E) k w = k (clock E (timed w)) (tick w).
Proof. reflexivity. Qed.

Lemma vars_send (m : midi_msg) (w : world) :
  vars (world_of (send m w)) = vars w.
Proof. unfold send. destruct (outport (vars w)); reflexivity. Qed.

Lemma vars_sleep (E : env) (s : Q) (w : world) :
  vars (world_of (sleep E s w)) = vars w.
Proof. reflexivity. Qed.

Lemma bind_bind {A B C} (m : M A) (k : A -> M B) (h : B -> M C) (w : world) :
  bind (bind m k) h w = bind m (fun a => bind (k a) h) w.
Proof. unfold bind. destruct (m w); reflexivity. Qed.

Lemma ltb_Q_lt (a b : Q) : ltb_Q a b = true <-> (a < b)%Q.
Proof.
  unfold ltb_Q. rewrite negb_true_iff. split.
  - intros H. apply Qnot_le_lt. intros Hle.
    apply Qle_bool_iff in Hle. congruence.
  - intros H. destruct (Qle_bool b a) eqn:Hb; [|reflexivity].
    apply Qle_bool_iff in Hb. exfalso. exact (Qlt_not_le _ _ H Hb).
Qed.

Lemma debounced_same_pad (g : game) (note : Z) (now : Q) :
  last_note g = Some note -> (now - last_note_time g < DEBOUNCE_S)%Q ->
  debounced g note now = true.
Proof.
  intros Hn Ht. unfold debounced. rewrite Hn, Z.eqb_refl. simpl.
  now apply ltb_Q_lt.
Qed.

Lemma debounced_other_pad (g : game) (note : Z) (now : Q) :
  last_note g <> Some note -> debounced g note now = false.
Proof.
  intros Hn. unfold debounced. destruct (last_note g) as [n|]; [|reflexivity].
  destruct (Z.eqb_spec n note) as [->|]; [congruence|reflexivity].
Qed.

(** A press of the pad pressed last, read within the window, leaves no
    mark: the loop goes on to the next message with the same variables,
    queues and trace. *)
Lemma handle_debounced (E : env) (w : world) (note velocity : Z) :
  last_note (vars w) = Some note ->
  (clock E (timed w) - last_note_time (vars w) < DEBOUNCE_S)%Q ->
  exists w',
    handle E (NoteOn note velocity) w = Done Continue w' /\
    vars w' = vars w /\ trace w' = trace w /\
    ui_to_game w' = ui_to_game w /\ pending w' = pending w.
Proof.
  intros Hn Ht. unfold handle.
  destruct (velocity =? 0); [exists w; repeat split|].
  destruct (note_to_pad_index note) as [idx|]; [|exists w; repeat split].
  rewrite bind_gets.
  destruct (negb (phase_eqb (phase (vars w)) Input));
    [exists w; repeat split|].
  rewrite bind_time_time, bind_gets. cbn [vars tick].
  rewrite (debounced_same_pad _ _ _ Hn Ht).
  exists (tick w). repeat split.
Qed.

(** ** What survives the transitions of the thread *)

Lemma holds_world_of (I : world -> Prop) {A} (P : game -> Prop) (m : M A)
      (Q : A -> game -> Prop) (w : world) :
  holds I P m Q -> I w -> P (vars w) -> I (world_of (m w)).
Proof.
  intros H HI HP. specialize (H w HI HP).
  destruct (m w); simpl; tauto.
Qed.

Lemma kept_steady (t0 : list obs) (d : option Z * Q) : steady (kept t0 d).
Proof.
  constructor;
    try (intros w [Ht Hd]; split; [exact Ht|exact Hd]);
    try (intros w ? [Ht Hd]; split; [exact Ht|exact Hd]);
    try (intros w [Ht Hd] ?; split; [exact Ht|exact Hd]).
  - intros a w [[ext Ht] Hd]. split; [|exact Hd].
    exists (ext ++ [mkObs a (vars w)]). simpl. rewrite Ht.
    now rewrite app_assoc.
  - intros w w' Hv Ht [[ext Hx] Hd]. split.
    + exists ext. congruence.
    + now rewrite Hv.
Qed.

Lemma kept_here (w : world) : kept (trace w) (debounce_state (vars w)) w.
Proof. split; [exists []; now rewrite app_nil_r|reflexivity]. Qed.

Lemma passes_kept (E : env) (w w' : world) :
  passes E w w' -> kept (trace w) (debounce_state (vars w)) w'.
Proof.
  induction 1 as [|w' _ IH|w' _ IH|w' _ IH|w' _ IH Hrest|w' s _ IH|w' _ IH].
  - apply kept_here.
  - eapply holds_world_of with (P := fun _ => True);
      [apply holds_go_idle, kept_steady|exact IH|exact Logic.I].
  - eapply holds_world_of with (P := fun _ => True);
      [apply holds_start_round, kept_steady|exact IH|exact Logic.I].
  - eapply holds_world_of with (P := fun _ => True);
      [apply holds_game_over, kept_steady|exact IH|exact Logic.I].
  - eapply holds_world_of;
      [apply holds_restart, kept_steady|exact IH|exact Hrest].
  - eapply holds_world_of with (P := fun _ => True);
      [apply holds_sleep, kept_steady|exact IH|exact Logic.I].
  - eapply holds_world_of with (P := fun _ => True);
      [apply holds_drain_commands, kept_steady|exact IH|exact Logic.I].
Qed.

(** No transition of the thread resets [DebounceState]: going idle
    (also on Stop), starting a round, game over, restarting a session,
    waiting and draining the commands leave the pair of last pad and
    time as it was, however each of them ends. *)
Lemma debounce_state_survives (E : env) (w w' : world) :
  passes E w w' -> debounce_state (vars w') = debounce_state (vars w).
Proof. intros Hp. now destruct (passes_kept E w w' Hp) as [_ Hd]. Qed.

(** ** What a run adds to the trace *)

Lemma grows_refl (w : world) : grows (trace w) w.
Proof. exists []. now rewrite app_nil_r. Qed.

Lemma grows_record (t0 : list obs) (a : action) (w : world) :
  grows t0 w -> grows t0 (record a w).
Proof.
  intros [ext H]. exists (ext ++ [mkObs a (vars w)]). simpl.
  now rewrite H, app_assoc.
Qed.

Lemma grows_send (t0 : list obs) (m : midi_msg) (w : world) :
  grows t0 w -> grows t0 (world_of (send m w)).
Proof.
  intros H. unfold send. destruct (outport (vars w)); simpl; [|exact H].
  now apply grows_record.
Qed.

Lemma grows_sleep (t0 : list obs) (E : env) (s : Q) (w : world) :
  grows t0 w -> grows t0 (world_of (sleep E s w)).
Proof.
  intros H. apply (grows_record t0 (Sleep s (arrivals E (slept w)))) in H.
  exact H.
Qed.

Lemma grows_set_vars (t0 : list obs) (g : game) (w : world) :
  grows t0 w -> grows t0 (set_vars g w).
Proof. intros H. exact H. Qed.

Lemma said_record (t0 : list obs) (a : action) (w : world) :
  grows t0 w -> said t0 a (record a w).
Proof.
  intros [ext H]. exists (ext ++ [mkObs a (vars w)]). split.
  - simpl. now rewrite H, app_assoc.
  - rewrite map_app. apply in_or_app. right. now left.
Qed.

Lemma said_grows (t0 : list obs) (a : action) (w w' : world) :
  said t0 a w -> grows (trace w) w' -> said t0 a w'.
Proof.
  intros (ext & H & Hin) [ext' H']. exists (ext ++ ext'). split.
  - now rewrite H', H, app_assoc.
  - rewrite map_app. apply in_or_app. now left.
Qed.

(** The rest of [evaluate] after the verdict is out: the trace only
    grows and [DebounceState] stays. *)
Lemma holds_after_wrong (I : world -> Prop) :
  steady I ->
  holds I (fun _ => True) (bind game_over (fun _ => ret Continue)) anything.
Proof.
  intros HI. eapply holds_bind; [now apply holds_game_over|intros ?].
  now apply holds_ret_if.
Qed.

Lemma holds_after_correct (E : env) (I : world -> Prop) :
  steady I ->
  holds I (fun _ => True)
    (bind (modify (fun g => set_expected_index (S (expected_index g)) g))
       (fun _ =>
          bind (gets (fun g => g))
            (fun g =>
               if (List.length (sequence g) <=? expected_index g)%nat
               then bind (sleep E (8 # 10))
                      (fun _ =>
                         bind (start_round E)
                           (fun _ =>
                              bind (gets phase)
                                (fun ph =>
                                   if phase_eqb ph Idle then ret Break
                                   else ret Continue)))
               else ret Continue)))
    anything.
Proof.
  intros HI.
  eapply holds_bind;
    [apply (holds_modify _ _ (fun _ => True));
     [intros; now apply (steady_advance I HI)|trivial]|intros ?].
  eapply holds_bind; [apply holds_gets|intros g].
  destruct (List.length (sequence g) <=? expected_index g)%nat.
  - eapply holds_bind; [now apply holds_sleep|intros ?].
    eapply holds_bind; [now apply holds_start_round|intros ?].
    eapply holds_bind; [apply holds_gets|intros ph].
    destruct (phase_eqb ph Idle); now apply holds_ret_if.
  - now apply holds_ret_if.
Qed.

(** A press that gets past the debounce test becomes the new
    [DebounceState] and is answered by the verdict on it. *)
Lemma evaluate_judges (E : env) (w : world) (note idx : Z) (now : Q) :
  (expected_index (vars w) < List.length (sequence (vars w)))%nat ->
  let w' := world_of (evaluate E note idx now w) in
  debounce_state (vars w') = (Some note, now) /\
  exists ev, (ev = EvCorrect idx \/ ev = EvWrong idx) /\
             said (trace w) (Emit ev) w'.
Proof.
  intros Hlt w'.
  destruct (nth_error (sequence (vars w)) (expected_index (vars w)))
    as [expected|] eqn:Hnth; [|apply nth_error_None in Hnth; lia].
  set (g1 := vars w |> set_last_note (Some note) |> set_last_note_time now).
  set (w5 := world_of (send (NoteOn note 0)
               (world_of (send (NoteOff note)
                  (world_of (sleep E (15 # 100)
                     (world_of (send (NoteOn note 127) (set_vars g1 w))))))))).
  assert (Hv5 : vars w5 = g1)
    by (unfold w5; now rewrite !vars_send, vars_sleep, vars_send).
  assert (Hg5 : grows (trace w) w5)
    by (unfold w5; repeat first [apply grows_send | apply grows_sleep];
        apply grows_set_vars, grows_refl).
  assert (Hw' : exists ev (tail : M flow),
             (ev = EvCorrect idx \/ ev = EvWrong idx) /\
             w' = world_of (tail (record (Emit ev) w5)) /\
             forall I, steady I -> holds I (fun _ => True) tail anything).
  { unfold w', evaluate.
    rewrite bind_modify, bind_send, bind_sleep, bind_send, bind_send, bind_gets.
    fold g1. fold w5. rewrite Hv5.
    change (sequence g1) with (sequence (vars w)).
    change (expected_index g1) with (expected_index (vars w)).
    rewrite Hnth. unfold bind at 1. cbn [lift].
    destruct (negb (note =? expected)); rewrite bind_emit.
    - exists (EvWrong idx). eexists. split; [now right|].
      split; [reflexivity|]. intros I HI. now apply holds_after_wrong.
    - exists (EvCorrect idx). eexists. split; [now left|].
      split; [reflexivity|]. intros I HI. now apply holds_after_correct. }
  destruct Hw' as (ev & tail & Hev & -> & Htail).
  assert (Hk : kept (trace (record (Emit ev) w5)) (Some note, now)
                    (world_of (tail (record (Emit ev) w5)))).
  { apply (holds_world_of _ (fun _ => True) tail anything);
      [apply Htail, kept_steady| |exact Logic.I].
    split; [apply grows_refl|]. cbn [record vars]. now rewrite Hv5. }
  destruct Hk as [Hgrow Hdeb]. split; [exact Hdeb|].
  exists ev. split; [exact Hev|].
  eapply said_grows; [|exact Hgrow]. now apply said_record.
Qed.

Lemma handle_not_debounced (E : env) (w : world) (note velocity idx : Z) :
  phase (vars w) = Input ->
  debounced (vars w) note (clock E (timed w)) = false ->
  velocity <> 0 ->
  note_to_pad_index note = Some idx ->
  handle E (NoteOn note velocity) w
  = evaluate E note idx (clock E (timed w)) (tick w).
Proof.
  intros Hph Hn Hv Hidx.
  unfold handle. apply Z.eqb_neq in Hv. rewrite Hv, Hidx.
  rewrite bind_gets, Hph. cbn [phase_eqb negb].
  rewrite bind_time_time, bind_gets. cbn [vars tick].
  now rewrite Hn.
Qed.

Lemma handle_other_pad (E : env) (w : world) (note velocity idx : Z) :
  phase (vars w) = Input ->
  last_note (vars w) <> Some note ->
  velocity <> 0 ->
  note_to_pad_index note = Some idx ->
  handle E (NoteOn note velocity) w
  = evaluate E note idx (clock E (timed w)) (tick w).
Proof.
  intros Hph Hn. apply handle_not_debounced; [exact Hph|].
  now apply debounced_other_pad.
Qed.

(** The debounce test as the thread makes it, on the clock reading it
    takes when it comes to handle the message: during input, a press of
    the pad pressed last that is read less than [DEBOUNCE_S] after the
    stored reading is ignored entirely: the loop goes on with the same
    variables (so the same expected index and phase) and the same trace
    (so no event at all).  A press of any other pad is never debounced,
    whatever the clock says: it becomes the new [DebounceState] and the
    verdict on it is emitted. *)
Theorem debounce_rule (E : env) (w : world) (note velocity : Z) :
  phase (vars w) = Input ->
  (last_note (vars w) = Some note ->
   (clock E (timed w) - last_note_time (vars w) < DEBOUNCE_S)%Q ->
   exists w',
     handle E (NoteOn note velocity) w = Done Continue w' /\
     vars w' = vars w /\ trace w' = trace w /\
     ui_to_game w' = ui_to_game w /\ pending w' = pending w) /\
  (forall idx,
     last_note (vars w) <> Some note ->
     velocity <> 0 ->
     note_to_pad_index note = Some idx ->
     (expected_index (vars w) < List.length (sequence (vars w)))%nat ->
     let w' := world_of (handle E (NoteOn note velocity) w) in
     debounce_state (vars w') = (Some note, clock E (timed w)) /\
     exists ev, (ev = EvCorrect idx \/ ev = EvWrong idx) /\
                said (trace w) (Emit ev) w').
Proof.
  intros Hph. split.
  - intros Hn Ht. now apply handle_debounced.
  - intros idx Hn Hv Hidx Hlt.
    rewrite (handle_other_pad E w note velocity idx Hph Hn Hv Hidx).
    apply (evaluate_judges E (tick w) note idx (clock E (timed w))).
    exact Hlt.
Qed.

(** Pad 0 was pressed at 10 s and the clock stands at 10.2 s: pad 0 is
    ignored, pad 9 is judged. *)
Lemma debounce_rule_witness :
  phase (vars input_world) = Input /\
  last_note (vars input_world) = Some 31 /\
  (clock quiet_env (timed input_world) - last_note_time (vars input_world)
   < DEBOUNCE_S)%Q /\
  (exists w',
     handle quiet_env (NoteOn 31 100) input_world = Done Continue w' /\
     vars w' = vars input_world /\ trace w' = trace input_world /\
     ui_to_game w' = ui_to_game input_world /\
     pending w' = pending input_world) /\
  last_note (vars input_world) <> Some 40 /\
  100 <> 0 /\
  note_to_pad_index 40 = Some 9 /\
  (expected_index (vars input_world)
   < List.length (sequence (vars input_world)))%nat /\
  let w' := world_of (handle quiet_env (NoteOn 40 100) input_world) in
  debounce_state (vars w') = (Some 40, clock quiet_env (timed input_world)) /\
  exists ev, (ev = EvCorrect 9 \/ ev = EvWrong 9) /\
             said (trace input_world) (Emit ev) w'.
Proof.
  assert (Ht : (clock quiet_env (timed input_world)
                - last_note_time (vars input_world) < DEBOUNCE_S)%Q)
    by reflexivity.
  assert (Hn : last_note (vars input_world) <> Some 40) by discriminate.
  assert (Hv : 100 <> 0) by discriminate.
  assert (Hlt : (expected_index (vars input_world)
                 < List.length (sequence (vars input_world)))%nat)
    by (simpl; lia).
  split; [reflexivity|]. split; [reflexivity|]. split; [exact Ht|].
  split; [exact (proj1 (debounce_rule quiet_env input_world 31 100 eq_refl)
                   eq_refl Ht)|].
  split; [exact Hn|]. split; [exact Hv|]. split; [reflexivity|].
  split; [exact Hlt|].
  exact (proj2 (debounce_rule quiet_env input_world 40 100 eq_refl)
           9 Hn Hv eq_refl Hlt).
Defined.

(** ** Scenarios *)

(** Scenario D where [is_top_score] returns: the sequence is pad 3 then
    pad 7, nothing is repeated yet and the player presses pad 7, a press
    that is not debounced.  The thread emits the rejection of pad 7,
    enters game over and reports the final score 1, the length of the
    sequence minus one, together with the verdict of the leaderboard on
    it.  The leaderboard file is read after the acknowledgement blink,
    so the verdict is on the file as the blink leaves it. *)
Theorem wrong_pad_ends_round
  (E : env) (w : world) (velocity : Z) (top : bool) :
  phase (vars w) = Input ->
  sequence (vars w) = [34; 38] ->
  expected_index (vars w) = 0%nat ->
  score_ok (vars w) ->
  velocity <> 0 ->
  debounced (vars w) 38 (clock E (timed w)) = false ->
  is_top_score (leaderboard_file (absorb (arrivals E (slept w)) w)) 1
    = Ok top ->
  exists w',
    handle E (NoteOn 38 velocity) w = Done Continue w' /\
    emitted w' = emitted w ++ [EvWrong 7; EvPhase GameOver; EvGameover 1 top] /\
    phase (vars w') = GameOver /\ score (vars w') = 1 /\
    sequence (vars w') = [34; 38].
Proof.
  intros Hph Hseq Hex Hok Hv Hdeb Htop.
  rewrite (handle_not_debounced E w 38 velocity 7 Hph Hdeb Hv eq_refl).
  assert (Hsc : score (vars w) = 1).
  { rewrite Hok by now right. now rewrite Hseq. }
  clear Hok Hdeb.
  destruct w as [g q p f t n1 n2 n3 n4].
  destruct g as [ip op sq sc ph ex ln lt sr mo].
  cbn -[is_top_score] in Hph, Hseq, Hex, Hsc, Htop. subst ph sq ex sc.
  unfold evaluate, game_over, top_score, emitted.
  destruct op; cbn -[is_top_score flat_map];
    unfold bind, gets, modify, emit, ret, lift; cbn -[is_top_score flat_map];
    rewrite Htop; (eexists; split; [reflexivity|]);
    cbn -[flat_map]; rewrite !flat_map_app; cbn; rewrite <- !app_assoc; cbn;
    repeat split.
Qed.

Lemma wrong_pad_ends_round_witness :
  phase (vars scenario_D) = Input /\
  sequence (vars scenario_D) = [34; 38] /\
  expected_index (vars scenario_D) = 0%nat /\
  score_ok (vars scenario_D) /\
  100 <> 0 /\
  debounced (vars scenario_D) 38 (clock quiet_env (timed scenario_D)) = false /\
  is_top_score
    (leaderboard_file
       (absorb (arrivals quiet_env (slept scenario_D)) scenario_D)) 1
    = Ok true /\
  exists w',
    handle quiet_env (NoteOn 38 100) scenario_D = Done Continue w' /\
    emitted w'
    = emitted scenario_D ++ [EvWrong 7; EvPhase GameOver; EvGameover 1 true] /\
    phase (vars w') = GameOver /\ score (vars w') = 1 /\
    sequence (vars w') = [34; 38].
Proof.
  assert (Hok : score_ok (vars scenario_D)) by (intros _; reflexivity).
  assert (Hv : 100 <> 0) by discriminate.
  split; [reflexivity|]. split; [reflexivity|]. split; [reflexivity|].
  split; [exact Hok|]. split; [exact Hv|]. split; [reflexivity|].
  split; [reflexivity|].
  exact (wrong_pad_ends_round quiet_env scenario_D 100 true
           eq_refl eq_refl eq_refl Hok Hv eq_refl eq_refl).
Defined.

(** C9 as stated fails: with Stop and then Start both pending at the
    checkpoint, [drain_commands] hands over Start, the pending Stop is
    lost and the remaining pads are lit. *)
Lemma pending_stop_overtaken_by_start :
  let w' := world_of (playback quiet_env [35; 36] stop_then_start) in
  In Stop (ui_to_game stop_then_start) /\
  phase (vars stop_then_start) = Playing /\
  emitted w' = [EvLight 4; EvUnlight 4; EvLight 5; EvUnlight 5] /\
  phase (vars w') = Playing /\
  sequence (vars w') = [34; 35; 36].
Proof.
  split; [now left|]. repeat split.
Qed.

(** Lighting a pad always returns; it changes no variable, and the
    queue grows by what arrives during its two sleeps. *)
Lemma light_pad_done (E : env) (note : Z) (w : world) :
  exists w1,
    light_pad E note w = Done tt w1 /\
    vars w1 = vars w /\
    ui_to_game w1
    = ui_to_game w ++ new_commands (arrivals E (slept w))
      ++ new_commands (arrivals E (S (slept w))) /\
    emitted w1
    = emitted w ++ match note_to_pad_index note with
                   | Some idx => [EvLight idx; EvUnlight idx]
                   | None => []
                   end.
Proof.
  destruct w as [g q p f t n1 n2 n3 n4].
  destruct g as [ip op sq sc ph ex ln lt sr mo].
  unfold light_pad, emitted.
  destruct (note_to_pad_index note) as [idx|]; destruct op;
    (eexists; split; [reflexivity|]);
    (split; [reflexivity|]);
    (split; [cbn; now rewrite <- app_assoc|]);
    cbn; rewrite ?flat_map_app; cbn;
    rewrite <- ?app_assoc; cbn; rewrite ?app_nil_r; reflexivity.
Qed.

(** C9, amended.  At a checkpoint of the playback the thread takes all
    pending commands off the queue and looks at the one put last.
    When that is Stop, it lights no further pad: all it does is
    announce the idle phase, the score 0 and (when the file loads) the
    leaderboard, and it is left idle with the sequence cleared.  When
    that is Start, whatever was put before it, a Stop included, is
    discarded with it: the thread lights the pad that is due, with its
    variables as they were, and goes on with the rest of the playback;
    the queue then holds only what arrived during the light pulse. *)
Theorem stop_aborts_playback
  (E : env) (w : world) (earlier : list command) (note : Z) (rest : list Z) :
  (ui_to_game w = earlier ++ [Stop] ->
   let o := playback E (note :: rest) w in
   (o = Done true (world_of o) \/ exists e, o = Failed e (world_of o)) /\
   phase (vars (world_of o)) = Idle /\
   sequence (vars (world_of o)) = [] /\
   score (vars (world_of o)) = 0 /\
   exists tail,
     actions (world_of o)
     = actions w ++ Emit (EvPhase Idle) :: Emit (EvScore 0) :: tail /\
     (tail = [] \/ exists board, tail = [Emit (EvLeaderboard board)])) /\
  (ui_to_game w = earlier ++ [Start] ->
   exists w1,
     light_pad E note (world_of (drain_commands w)) = Done tt w1 /\
     playback E (note :: rest) w = playback E rest w1 /\
     vars w1 = vars w /\
     ui_to_game w1
     = new_commands (arrivals E (slept w))
       ++ new_commands (arrivals E (S (slept w))) /\
     emitted w1
     = emitted w ++ match note_to_pad_index note with
                    | Some idx => [EvLight idx; EvUnlight idx]
                    | None => []
                    end).
Proof.
  split.
  - intros Hq o.
    assert (Ho : exists w1,
               o = match load_leaderboard (leaderboard_file w) with
                   | Ok board =>
                       Done true (record (Emit (EvLeaderboard board)) w1)
                   | Raise e => Failed e w1
                   end /\
               phase (vars w1) = Idle /\ sequence (vars w1) = [] /\
               score (vars w1) = 0 /\
               map act (trace w1)
               = actions w ++ [Emit (EvPhase Idle); Emit (EvScore 0)]).
    { eexists. split.
      - unfold o. cbn [playback].
        unfold bind at 1. unfold drain_commands at 1. rewrite Hq.
        rewrite map_app. cbn [map]. rewrite last_last. cbn [is_stop].
        unfold go_idle, load_board.
        rewrite bind_modify, bind_bind, bind_modify, !bind_bind, bind_emit.
        rewrite !bind_bind, bind_emit, !bind_bind.
        unfold bind at 1. cbn [leaderboard_file record set_vars].
        destruct (load_leaderboard (leaderboard_file w)) as [board|e];
          cbn [lift]; [rewrite bind_emit|]; reflexivity.
      - repeat split. unfold actions. cbn [trace record set_vars vars].
        rewrite !map_app, <- !app_assoc. reflexivity. }
    destruct Ho as (w1 & Ho & Hph & Hseq & Hsc & Hact).
    clearbody o. subst o.
    destruct (load_leaderboard (leaderboard_file w)) as [board|e];
      cbn [world_of].
    + split; [now left|]. repeat split; try assumption.
      exists [Emit (EvLeaderboard board)]. split; [|right; now exists board].
      unfold actions at 1. cbn [trace record]. rewrite map_app, Hact.
      now rewrite <- app_assoc.
    + split; [right; now exists e|]. repeat split; try assumption.
      exists []. split; [|now left]. exact Hact.
  - intros Hq.
    destruct (light_pad_done E note (world_of (drain_commands w)))
      as (w1 & Hl & Hv & Hu & He).
    exists w1. split; [exact Hl|].
    split; [|split; [exact Hv|split; [exact Hu|exact He]]].
    cbn [playback]. unfold bind at 1. unfold drain_commands at 1.
    rewrite Hq, map_app. cbn [map]. rewrite last_last. cbn [is_stop].
    unfold bind at 1.
    change (mkWorld (vars w) [] (pending w) (leaderboard_file w) (trace w)
                    (slept w) (rolled w) (timed w) (scanned w))
      with (world_of (drain_commands w)).
    now rewrite Hl.
Qed.

(** Scenario E: three pads to play, Stop arrives while the first is
    lit; at the second checkpoint the playback is abandoned.  With Stop
    and then Start waiting at that checkpoint, the second pad is lit
    and the third is next. *)
Lemma stop_aborts_playback_witness :
  (let w := world_of (light_pad stop_env 34 scenario_E) in
   ui_to_game w = [] ++ [Stop] /\
   let o := playback stop_env (35 :: [36]) w in
   (o = Done true (world_of o) \/ exists e, o = Failed e (world_of o)) /\
   phase (vars (world_of o)) = Idle /\
   sequence (vars (world_of o)) = [] /\
   score (vars (world_of o)) = 0 /\
   exists tail,
     actions (world_of o)
     = actions w ++ Emit (EvPhase Idle) :: Emit (EvScore 0) :: tail /\
     (tail = [] \/ exists board, tail = [Emit (EvLeaderboard board)])) /\
  (ui_to_game stop_then_start = [Stop] ++ [Start] /\
   exists w1,
     light_pad quiet_env 35 (world_of (drain_commands stop_then_start))
     = Done tt w1 /\
     playback quiet_env (35 :: [36]) stop_then_start
     = playback quiet_env [36] w1 /\
     vars w1 = vars stop_then_start /\
     ui_to_game w1
     = new_commands (arrivals quiet_env (slept stop_then_start))
       ++ new_commands (arrivals quiet_env (S (slept stop_then_start))) /\
     emitted w1
     = emitted stop_then_start
       ++ match note_to_pad_index 35 with
          | Some idx => [EvLight idx; EvUnlight idx]
          | None => []
          end).
Proof.
  split.
  - split; [reflexivity|].
    apply (proj1 (stop_aborts_playback stop_env
                    (world_of (light_pad stop_env 34 scenario_E))
                    [] 35 [36])).
    reflexivity.
  - split; [reflexivity|].
    apply (proj2 (stop_aborts_playback quiet_env stop_then_start
                    [Stop] 35 [36])).
    reflexivity.
Defined.

(** C2 fails on the code: a press made while the first round is played
    back waits in the input port and is taken as the player's answer as
    soon as the input phase begins.  Here the only press of the whole
    run arrives during the light pulse of pad 0, when the phase is
    playing; the thread later emits its acceptance and goes on to the
    second round. *)
Theorem press_during_playback_is_accepted :
  let w := world_of (game_thread stale_env 2 (boot FileAbsent)) in
  (forall n, n <> 1%nat -> new_messages (arrivals stale_env n) = []) /\
  (exists g, In (mkObs (Sleep (45 # 100) early_press) g) (trace w) /\
             phase g = Playing) /\
  emitted w
  = [EvPhase Idle; EvScore 0; EvLeaderboard [];
     EvScore 0; EvPhase Playing; EvLight 0; EvUnlight 0; EvPhase Input;
     EvCorrect 0;
     EvScore 1; EvPhase Playing; EvLight 0; EvUnlight 0;
     EvLight 0; EvUnlight 0; EvPhase Input] /\
  sequence (vars w) = [31; 31] /\ expected_index (vars w) = 0%nat.
Proof.
  split.
  - intros [|[|n]] Hn; [reflexivity|congruence|reflexivity].
  - split; [|repeat split].
    exists (mkGame true true [31] 0 Playing 0 None 0%Q false true).
    split; [|reflexivity].
    vm_compute. do 8 right. left. reflexivity.
Qed.

(** C5 fails on the code.  The player is in the second round and
    repeats pad 3 and pad 7; the pad reports the press of pad 7 twice,
    both messages reaching the port during the same 50 ms wait of the
    input phase.  The first is the last press of the round: it is
    recorded as the last press, with the reading 1003.4 s, and
    accepted, and the thread sleeps 0.8 s and plays the third round
    back before it takes the next message off the port.  By then the
    clock is 3.05 s past the stored reading, so the second message, the
    same pad within 50 ms of the recorded press, is not ignored: it is
    judged against the first pad of the new sequence, rejected, and
    ends the game.  The clock of the run moves exactly with the sleeps
    of the thread. *)
Theorem duplicate_press_is_judged :
  let w := world_of (game_thread double_env 7 (boot FileAbsent)) in
  let heard :=
    mkGame true true [34; 38] 1 Input 1 (Some 34) (10032 # 10) false true in
  let recorded :=
    mkGame true true [34; 38] 1 Input 1 (Some 38) (10034 # 10) false true in
  (forall n, n <> 12%nat ->
     (List.length (new_messages (arrivals double_env n)) <= 1)%nat) /\
  In (mkObs (Sleep (5 # 100) (chatter 38)) heard) (trace w) /\
  In (mkObs (Emit (EvCorrect 7)) recorded) (trace w) /\
  on_time 1000 (trace w) = true /\
  timed w = 4%nat /\
  emitted w
  = [EvPhase Idle; EvScore 0; EvLeaderboard [];
     EvScore 0; EvPhase Playing; EvLight 3; EvUnlight 3; EvPhase Input;
     EvCorrect 3;
     EvScore 1; EvPhase Playing; EvLight 3; EvUnlight 3;
     EvLight 7; EvUnlight 7; EvPhase Input;
     EvCorrect 3; EvCorrect 7;
     EvScore 2; EvPhase Playing; EvLight 3; EvUnlight 3;
     EvLight 7; EvUnlight 7; EvLight 0; EvUnlight 0; EvPhase Input;
     EvWrong 7; EvPhase GameOver; EvGameover 2 true] /\
  phase (vars w) = GameOver /\
  debounce_state (vars w) = (Some 38, 100645 # 100).
Proof.
  split.
  - intros n Hn.
    do 13 (destruct n as [|n]; [first [congruence | simpl; lia]|]).
    simpl. lia.
  - split; [find_in_trace|]. split; [find_in_trace|].
    repeat split; vm_compute; reflexivity.
Qed.

(** C8 fails on the code.  Scenario D is played from the start of the
    thread while the leaderboard file holds five entries whose scores
    are strings; the file loads, and the idle announcement shows it.
    In the second round the sequence is pad 3, pad 7, nothing is
    repeated yet, and the player presses pad 7.  The thread emits the
    rejection and the game-over phase, then [is_top_score] compares the
    score 1 with the string of the fifth entry and raises: no event
    reports the final score, the handler of the thread emits the error
    and the loop is left for good. *)
Theorem wrong_pad_without_report :
  let o := game_thread scenario_D_env 6 (boot text_scores) in
  let w := world_of o in
  let asked :=
    mkGame true true [34; 38] 1 Input 0 (Some 34) (10008 # 10) false true in
  load_leaderboard text_scores = Ok text_board /\
  is_top_score text_scores 1 = Raise TypeError /\
  In (mkObs (Sleep (5 # 100) (press 38)) asked) (trace w) /\
  on_time 1000 (trace w) = true /\
  o = Done tt w /\
  emitted w
  = [EvPhase Idle; EvScore 0; EvLeaderboard text_board;
     EvScore 0; EvPhase Playing; EvLight 3; EvUnlight 3; EvPhase Input;
     EvCorrect 3;
     EvScore 1; EvPhase Playing; EvLight 3; EvUnlight 3;
     EvLight 7; EvUnlight 7; EvPhase Input;
     EvWrong 7; EvPhase GameOver; EvError (Crashed TypeError)] /\
  (forall s top, ~ In (EvGameover s top) (emitted w)) /\
  phase (vars w) = GameOver /\
  sequence (vars w) = [34; 38] /\ score (vars w) = 1.
Proof.
  intros o w asked.
  assert (He : emitted w
               = [EvPhase Idle; EvScore 0; EvLeaderboard text_board;
                  EvScore 0; EvPhase Playing; EvLight 3; EvUnlight 3;
                  EvPhase Input; EvCorrect 3;
                  EvScore 1; EvPhase Playing; EvLight 3; EvUnlight 3;
                  EvLight 7; EvUnlight 7; EvPhase Input;
                  EvWrong 7; EvPhase GameOver; EvError (Crashed TypeError)])
    by (vm_compute; reflexivity).
  split; [vm_compute; reflexivity|].
  split; [vm_compute; reflexivity|].
  split; [find_in_trace|].
  split; [vm_compute; reflexivity|].
  split; [vm_compute; reflexivity|].
  split; [exact He|].
  split; [|repeat split; vm_compute; reflexivity].
  intros s top Hin. rewrite He in Hin. cbn [In] in Hin.
  repeat (destruct Hin as [Hin|Hin]; [discriminate Hin|]).
  exact Hin.
Qed.


(** In the run where the player presses early, the state in which the
    thread slept through that press is a playing state with one pad in
    the sequence and a score of 0. *)
Lemma score_is_length_minus_one_witness :
  let w := world_of (game_thread stale_env 2 (boot FileAbsent)) in
  let o := mkObs (Sleep (45 # 100) early_press)
                 (mkGame true true [31] 0 Playing 0 None 0%Q false true) in
  In o (trace w) /\
  (phase (snap o) = Playing \/ phase (snap o) = Input) /\
  score (snap o) = Z.of_nat (List.length (sequence (snap o))) - 1.
Proof.
  assert (Hin : In (mkObs (Sleep (45 # 100) early_press)
                      (mkGame true true [31] 0 Playing 0 None 0%Q false true))
                   (trace (world_of (game_thread stale_env 2 (boot FileAbsent)))))
    by (vm_compute; do 8 right; left; reflexivity).
  split; [exact Hin|]. split; [left; reflexivity|].
  exact (proj1 (score_is_length_minus_one stale_env 2 FileAbsent)
           _ Hin (or_introl eq_refl)).
Defined.

(** ** The console game *)

(** [main.py] applies the same debounce rule: during input a press of
    the pad pressed last, read within the window, changes nothing and
    prints nothing; a press of another pad is never held back by the
    rule and becomes the new last press. *)
Lemma console_debounce_rule
  (outport : bool) (now : Q) (pick : Z) (st : Console.state)
  (note velocity : Z) :
  Console.phase st = Input ->
  (Console.last_note st = Some note ->
   (now - Console.last_note_time st < DEBOUNCE_S)%Q ->
   Console.handle outport now pick (NoteOn note velocity) st = Ok (st, [])) /\
  (forall idx,
     Console.last_note st <> Some note ->
     velocity <> 0 ->
     note_to_pad_index note = Some idx ->
     (Console.expected_index st < List.length (Console.sequence st))%nat ->
     exists st' out,
       Console.handle outport now pick (NoteOn note velocity) st
       = Ok (st', out) /\
       Console.last_note st' = Some note /\
       Console.last_note_time st' = now /\
       out <> []).
Proof.
  intros Hph. split.
  - intros Hn Ht. unfold Console.handle.
    destruct (velocity =? 0); [reflexivity|].
    destruct (note_to_pad_index note); [|reflexivity].
    rewrite Hph. cbn [phase_eqb negb].
    unfold Console.debounced. rewrite Hn, Z.eqb_refl.
    apply ltb_Q_lt in Ht. now rewrite Ht.
  - intros idx Hn Hv Hidx Hlt. unfold Console.handle.
    apply Z.eqb_neq in Hv. rewrite Hv, Hidx, Hph. cbn [phase_eqb negb].
    assert (Hd : Console.debounced st note now = false).
    { unfold Console.debounced.
      destruct (Console.last_note st) as [n|]; [|reflexivity].
      destruct (Z.eqb_spec n note) as [->|]; [congruence|reflexivity]. }
    rewrite Hd. cbn [Console.sequence Console.expected_index].
    destruct (nth_error (Console.sequence st) (Console.expected_index st))
      as [expected|] eqn:Hnth; [|apply nth_error_None in Hnth; lia].
    destruct (negb (note =? expected)).
    + eexists. eexists. split; [reflexivity|]. repeat split.
      unfold Console.send. destruct outport; discriminate.
    + cbn [Console.sequence Console.expected_index Console.level
           Console.phase Console.last_note Console.last_note_time].
      destruct (List.length (Console.sequence st)
                <=? S (Console.expected_index st))%nat.
      * eexists. eexists. split; [reflexivity|]. repeat split.
        unfold Console.send. destruct outport; discriminate.
      * eexists. eexists. split; [reflexivity|]. repeat split.
        unfold Console.send. destruct outport; discriminate.
Qed.
